(** * solar_map: the LED frame of [paris.py]

    A shallow embedding of [paris.py] and the properties of its
    specification.

    Modelling conventions.
    - Python integers are [Z]; [//] and [%] are floor division and its
      remainder, which is what [Z.div] and [Z.modulo] compute.
    - Python floats are idealised as exact numbers: [Q] where the code only
      adds, multiplies, divides and compares (the animator), [R] where it
      calls [math.sin], [math.cos], [math.atan2] and friends (geometry and
      ephemeris).  Rounding error is therefore not part of the model.
    - A [bytearray] is a [list Z]; stores check the byte range and the index
      the way Python does and raise through the [result] monad.  A raised
      exception ends the run: the buffers of an aborted run are not kept.
    - The two global buffers [leds_0] and [leds_1] are threaded explicitly;
      [esp.neopixel_write] appends the emitted frame to a trace.  The pacing
      sleeps, the network bootstrap and the timer are not modelled.
    - [math.asin] is the total arcsine of the standard library; the code only
      calls it on products of sines and on a scalar product of unit vectors. *)

From Stdlib Require Import ZArith QArith Qabs Reals Machin Lia Lra Psatz List Bool.
Import ListNotations.

Local Open Scope Z_scope.

(** ** Module-level constants *)

(** number of leds *)
Definition n : Z := 180.

(** numbers of leds in width and height *)
Definition cols : Z := 54.
Definition rows : Z := 36.

(** width and height of the frame in cm *)
Definition width : R := (895 / 10)%R.
Definition height : R := (605 / 10)%R.

(** led indices at intercardinal directions *)
Definition south_east : Z := 0.
Definition south_west : Z := cols.
Definition north_west : Z := cols + rows.
Definition north_east : Z := 2 * cols + rows.

Inductive side : Type := north | east | south | west.

(** An entry of [cardinals]: (center index, number of pixels, (start, end)). *)
Record cardinal : Type := mkCardinal {
  center_index : Z;
  pixel_count : Z;
  arc_start : Z;
  arc_end : Z
}.

Definition cardinals (s : side) : cardinal :=
  match s with
  | north => mkCardinal ((north_east + north_west) / 2) cols north_west north_east
  | east => mkCardinal ((north_east + n) / 2) rows north_east n
  | south => mkCardinal ((south_west + south_east) / 2) cols south_east south_west
  | west => mkCardinal ((south_west + north_west) / 2) rows south_west north_west
  end.

(** ** Exceptions *)

Inductive exn : Type := TypeError | ValueError | IndexError | ZeroDivisionError.

Inductive result (A : Type) : Type :=
| OK (a : A)
| Raise (e : exn).
Arguments OK {A} a.
Arguments Raise {A} e.

Definition bind {A B : Type} (m : result A) (k : A -> result B) : result B :=
  match m with
  | OK a => k a
  | Raise e => Raise e
  end.

Notation "x <- m ;; k" := (bind m (fun x => k))
  (at level 61, m at next level, right associativity).

(** [for x in l: body] over a threaded state. *)
Fixpoint for_each {A S : Type} (l : list A) (body : A -> S -> result S) (s : S)
  : result S :=
  match l with
  | [] => OK s
  | x :: l' => s' <- body x s ;; for_each l' body s'
  end.

(** [[f(x) for x in l]] where [f] may raise. *)
Fixpoint map_m {A B : Type} (f : A -> result B) (l : list A) : result (list B) :=
  match l with
  | [] => OK []
  | x :: l' => y <- f x ;; ys <- map_m f l' ;; OK (y :: ys)
  end.

(** [range(a, b)] *)
Definition range (a b : Z) : list Z :=
  map (fun k => a + Z.of_nat k) (seq 0 (Z.to_nat (b - a))).

(** ** Byte arrays *)

Definition is_byte (v : Z) : bool := (0 <=? v) && (v <=? 255).

(** [bytearray(k)]: [k] zero bytes. *)
Definition zeros (k : Z) : list Z := repeat 0 (Z.to_nat k).

(** [bytearray(values)] raises [ValueError] on a value outside [range(256)]. *)
Definition bytearray (values : list Z) : result (list Z) :=
  if forallb is_byte values then OK values else Raise ValueError.

(** A subscript counted from the end when negative. *)
Definition norm_index (len k : Z) : Z := if k <? 0 then k + len else k.

(** [buf[k]] *)
Definition getitem (buf : list Z) (k : Z) : result Z :=
  let len := Z.of_nat (length buf) in
  let k' := norm_index len k in
  if (0 <=? k') && (k' <? len) then OK (nth (Z.to_nat k') buf 0)
  else Raise IndexError.

Fixpoint list_set (buf : list Z) (k : nat) (v : Z) : list Z :=
  match buf, k with
  | [], _ => []
  | _ :: tl, O => v :: tl
  | hd :: tl, S k' => hd :: list_set tl k' v
  end.

(** [buf[k] = v] *)
Definition setitem (buf : list Z) (k : Z) (v : Z) : result (list Z) :=
  let len := Z.of_nat (length buf) in
  let k' := norm_index len k in
  if (0 <=? k') && (k' <? len) then
    if is_byte v then OK (list_set buf (Z.to_nat k') v) else Raise ValueError
  else Raise IndexError.

(** A slice bound as Python adjusts it (step 1). *)
Definition adjust (len i : Z) : Z :=
  if i <? 0 then Z.max (i + len) 0 else Z.min i len.

(** [buf[a:b] = v] for a bytearray [v]: the slice is replaced by [v], whatever
    the two lengths are; an empty or inverted slice inserts [v] at its start. *)
Definition setslice (buf : list Z) (a b : Z) (v : list Z) : list Z :=
  let len := Z.of_nat (length buf) in
  let start := adjust len a in
  let stop := Z.max (adjust len b) start in
  firstn (Z.to_nat start) buf ++ v ++ skipn (Z.to_nat stop) buf.

(** ** Colors and buffers *)

(** grb!! (green, red, blue, white) *)
Definition color : Type := (Z * Z * Z * Z)%type.

Definition channels (c : color) : list Z :=
  let '(c0, c1, c2, c3) := c in [c0; c1; c2; c3].

Definition off : color := (0, 0, 0, 0).
Definition ambient : color := (0, 0, 0, 5).
Definition river : color := (10, 0, 15, 0).

Record state : Type := mkState {
  leds_0 : list Z;          (* current leds *)
  leds_1 : list Z;          (* leds to be faded to *)
  wire : list (list Z)      (* frames handed to esp.neopixel_write, oldest first *)
}.

Definition initial : state := mkState (zeros (n * 4)) (zeros (n * 4)) [].

Definition with_leds_0 (st : state) (l : list Z) : state :=
  mkState l (leds_1 st) (wire st).

Definition with_leds_1 (st : state) (l : list Z) : state :=
  mkState (leds_0 st) l (wire st).

(** [esp.neopixel_write(pin, leds_0, True)] *)
Definition neopixel_write (st : state) : state :=
  mkState (leds_0 st) (leds_1 st) (wire st ++ [leds_0 st]).

(** ** Interpolation (animator arithmetic, over [Q]) *)

Definition clamp (v a b : Z) : Z := Z.max (Z.min v b) a.

Definition Qltb (x y : Q) : bool := negb (Qle_bool y x).

(** Python's [min(v, b)] and [max(v, a)] on floats. *)
Definition Qmin_py (v b : Q) : Q := if Qltb b v then b else v.
Definition Qmax_py (v a : Q) : Q := if Qltb v a then a else v.

Definition clampQ (v a b : Q) : Q := Qmax_py (Qmin_py v b) a.

(** [int(x)] on a float: truncation toward zero. *)
Definition int_of_Q (x : Q) : Z := Z.quot (Qnum x) (Z.pos (Qden x)).

Definition interpolate (a b : Z) (t : Q) : Q :=
  (inject_Z a + clampQ t 0 1 * inject_Z (b - a))%Q.

Definition interpolate_rgbw (a b : color) (t : Q) : color :=
  let '(a0, a1, a2, a3) := a in
  let '(b0, b1, b2, b3) := b in
  (int_of_Q (interpolate a0 b0 t), int_of_Q (interpolate a1 b1 t),
   int_of_Q (interpolate a2 b2 t), int_of_Q (interpolate a3 b3 t)).

(** ** Pixel buffer and animator *)

(** [if pixels:] is false for [None] and for the empty set. *)
Definition truthy (pixels : option (list Z)) : bool :=
  match pixels with
  | Some (_ :: _) => true
  | _ => false
  end.

(** [leds_0[k] = int(interpolate(leds_0[k], leds_1[k], t))] *)
Definition blend_byte (t : Q) (k : Z) (st : state) : result state :=
  a <- getitem (leds_0 st) k ;;
  b <- getitem (leds_1 st) k ;;
  l <- setitem (leds_0 st) k (int_of_Q (interpolate a b t)) ;;
  OK (with_leds_0 st l).

(** [a / b] on integers: true division, a float. *)
Definition true_div (a b : Z) : result Q :=
  if b =? 0 then Raise ZeroDivisionError else OK (inject_Z a / inject_Z b)%Q.

Definition apply_step (steps : Z) (pixels : option (list Z)) (i : Z) (st : state)
  : result state :=
  t <- true_div (i + 1) steps ;;
  st' <- (if truthy pixels then
            for_each (match pixels with Some p => p | None => [] end)
              (fun j => for_each (range j (j + 4)) (blend_byte t)) st
          else
            for_each (range 0 (n * 4)) (blend_byte t) st) ;;
  OK (neopixel_write st').

Definition apply (steps : Z) (pixels : option (list Z)) (st : state) : result state :=
  for_each (range 0 steps) (apply_step steps pixels) st.

(** [changed_leds.add(index)] *)
Definition set_add (x : Z) (s : list Z) : list Z :=
  if existsb (Z.eqb x) s then s else s ++ [x].

Definition uni (c : color) (st : state) : result state :=
  for_each (range 0 n)
    (fun i st =>
       b <- bytearray (channels c) ;;
       OK (with_leds_1 st (setslice (leds_1 st) (i * 4) (i * 4 + 4) b)))
    st.

(** [x / b] for a float [x] and an integer [b]. *)
Definition float_div (x : Q) (b : Z) : result Q :=
  if b =? 0 then Raise ZeroDivisionError else OK (x / inject_Z b)%Q.

(** One iteration of the loop of [set_area]; the state carries [changed_leds]. *)
Definition set_area_body (center size : Z) (primary secondary : color)
    (direct : bool) (i : Z) (acc : list Z * state) : result (list Z * state) :=
  let '(changed_leds, st) := acc in
  let d : Q := if (size mod 2 =? 0) then (1 # 2)%Q else 0%Q in
  q <- float_div (inject_Z center - inject_Z i - d)%Q size ;;
  let t := Qabs q in
  let c := interpolate_rgbw primary secondary t in
  let index := (i mod n) * 4 in
  b <- bytearray (channels c) ;;
  let st' := if direct
             then with_leds_0 st (setslice (leds_0 st) index (index + 4) b)
             else with_leds_1 st (setslice (leds_1 st) index (index + 4) b) in
  OK (set_add index changed_leds, st').

Definition set_area (center size : Z) (primary secondary : color) (direct : bool)
    (st : state) : result (list Z * state) :=
  let half := size / 2 in
  let start := center - half in
  let end_ := center + half + size mod 2 in
  for_each (range start end_) (set_area_body center size primary secondary direct)
    ([], st).

(** ** Geometry kernel (over [R]) *)

Definition Rltb (x y : R) : bool := if Rlt_dec x y then true else false.

Definition vec3 : Type := (R * R * R)%type.

Definition v0 (a : vec3) : R := fst (fst a).
Definition v1 (a : vec3) : R := snd (fst a).
Definition v2 (a : vec3) : R := snd a.

Definition cross (a b : vec3) : vec3 :=
  (v1 a * v2 b - v2 a * v1 b,
   v2 a * v0 b - v0 a * v2 b,
   v0 a * v1 b - v1 a * v0 b)%R.

(** [math.atan2(y, x)], the angle of the point [(x, y)] in (-pi, pi]. *)
Definition atan2 (y x : R) : R :=
  if Rlt_dec 0 x then atan (y / x)
  else if Rlt_dec x 0 then
    (if Rle_dec 0 y then atan (y / x) + PI else atan (y / x) - PI)
  else if Rlt_dec 0 y then PI / 2
  else if Rlt_dec y 0 then - (PI / 2)
  else 0.

Definition wrap_to_pi (a : R) : R := atan2 (sin a) (cos a).

Definition wrap_to_0_2pi (a : R) : R :=
  (atan2 (sin (a - PI)) (cos (a - PI)) + PI)%R.

Definition northclockwise2math (a : R) : R :=
  (* clockwise to counter clockwise *)
  let a_pi := (2 * PI - a)%R in
  (* add 90 deg offset from north to west *)
  let a_pi := (a_pi + PI / 2)%R in
  (* wrap to -pi,pi *)
  wrap_to_pi a_pi.

(** The tolerance [1e-3] of every test of [get_border_intersections]. *)
Definition eps : R := (1 / 1000)%R.

Definition side_map (i : nat) : side :=
  match i with
  | 0%nat => north
  | 1%nat => east
  | 2%nat => south
  | _ => west
  end.

Definition frame (w2 h2 : R) : list vec3 :=
  [ (- w2, h2, 1);       (* north west *)
    (w2, h2, 1);         (* north east *)
    (w2, - h2, 1);       (* south east *)
    (- w2, - h2, 1) ]%R. (* south west *)

(** The body of the loop of [get_border_intersections] for edge [i]:
    [None] stands for [continue] and for falling out of the last test. *)
Definition border_intersection (w2 h2 : R) (axis : vec3) (i : nat)
  : option (side * (R * R)) :=
  let fr := frame w2 h2 in
  let zero := (0, 0, 0)%R in
  (* build vecs for north, east, south, west *)
  let line := cross (nth i fr zero) (nth ((i + 1) mod 4) fr zero) in
  (* intersect *)
  let s := cross axis line in
  if Rltb (Rabs (v2 s)) eps then None                               (* parallel *)
  else if Rltb (Rabs (v0 s)) eps && Rltb (Rabs (v1 s)) eps then None (* equal *)
  else if Rltb 0 (v2 s) then None                          (* on opposite side *)
  else
    (* normalize *)
    let x := (v0 s / v2 s)%R in
    let y := (v1 s / v2 s)%R in
    (* check if intersection lies within the boundaries of the frame *)
    if Rltb (- w2 - eps) x && Rltb x (w2 + eps)
       && Rltb (- h2 - eps) y && Rltb y (h2 + eps)
    then Some (side_map i, (x, y))
    else None.

Fixpoint first_intersection (w2 h2 : R) (axis : vec3) (edges : list nat)
  : option (side * (R * R)) :=
  match edges with
  | [] => None
  | i :: edges' =>
      match border_intersection w2 h2 axis i with
      | Some r => Some r
      | None => first_intersection w2 h2 axis edges'
      end
  end.

Definition get_border_intersections (w h : R) (axis : vec3)
  : option (side * (R * R)) :=
  first_intersection (w / 2) (h / 2) axis (seq 0 4).

(** ** Frame mapper *)

(** [round(x)]: nearest integer, ties to the even one. *)
Definition round (x : R) : Z :=
  let f := Int_part x in
  let r := (x - IZR f)%R in
  if Rltb r (1 / 2) then f
  else if Rltb (1 / 2) r then f + 1
  else if Z.even f then f else f + 1.

(** unwind to centimeters on the stripe *)
Definition unwind (s : side) (x y : R) : R :=
  match s with
  | south => - x + width / 2
  | west => width + y + height / 2
  | north => width + height + x + width / 2
  | east => 2 * width + height - y + height / 2
  end%R.

(** get led at length (0.6 leds per cm), sanity clamped *)
Definition led_at (cm : R) : Z :=
  clamp (round (cm * (6 / 10) - 1)) 0 (n - 1).

(** What [intersect_angle_frame] does with the outcome of the intersection. *)
Definition led_of_intersection (r : option (side * (R * R))) : option Z :=
  match r with
  | Some (s, (x, y)) => Some (led_at (unwind s x y))
  | None => None
  end.

Definition intersect_angle_frame (angle : R) : option Z :=
  let line := cross (0, 0, 1)%R (cos angle, sin angle, 1%R) in
  led_of_intersection (get_border_intersections width height line).

(** ** Solar ephemeris (integer Julian day, then over [R]) *)

Record date_time : Type := mkDateTime {
  year : Z; month : Z; day : Z;
  hour : Z; minute : Z; second : Z;
  weekday : Z; yearday : Z
}.

(** julian day *)
Definition jd (year month day : Z) : Z :=
  (1461 * (year + 4800 + (month - 14) / 12)) / 4
  + (367 * (month - 2 - 12 * ((month - 14) / 12))) / 12
  - (3 * ((year + 4900 + (month - 14) / 12) / 100)) / 4
  + day - 32075.

Definition radians (x : R) : R := (x * PI / 180)%R.

(** [x % m] on floats, for [m > 0]. *)
Definition Rmod (x m : R) : R := (x - m * IZR (Int_part (x / m)))%R.

Definition calc_solar_position (coords : R * R) (dt : date_time) : R * R :=
  (* convert coords to radians *)
  let rlat := radians (fst coords) in
  let rlong := radians (snd coords) in
  (* number of days since Jan 1st 2000, 12 UTC *)
  let n := IZR (jd (year dt) (month dt) (day dt) - 2451545) in
  (* mean ecliptical length *)
  let L := (radians (280460 / 1000) + radians (9856474 / 10000000) * n)%R in
  let L := wrap_to_0_2pi L in
  (* mean anomaly *)
  let g := (radians (357528 / 1000) + radians (9856003 / 10000000) * n)%R in
  let g := wrap_to_0_2pi g in
  (* ecliptical length *)
  let A := (L + radians (1915 / 1000) * sin g
            + radians (1997 / 100000) * sin (2 * g))%R in
  let A := wrap_to_0_2pi A in
  (* ecliptic inclination *)
  let epsilon := (radians (23439 / 1000) - radians (4 / 10000000) * n)%R in
  let epsilon := wrap_to_0_2pi epsilon in
  (* right ascension *)
  let a1 := atan (cos epsilon * tan A) in
  let a2 := (atan (cos epsilon * tan A) + PI)%R in
  let alpha := if Rltb 0 (cos A) then a1 else a2 in
  let alpha := wrap_to_0_2pi alpha in
  (* declination *)
  let delta := asin (sin epsilon * sin A) in
  let delta := wrap_to_0_2pi delta in
  (* julian century since 2000 *)
  let t_0 := (n / 36525)%R in
  (* middle sidereal time in hours *)
  let theta_g_h := (6697376 / 1000000 + 240005134 / 100000 * t_0
                    + 1002738 / 1000000 * (IZR (hour dt) + IZR (minute dt) / 60))%R in
  let theta_g_h := Rmod theta_g_h 24 in
  (* Greenwich hour angle at vernal equinox *)
  let theta_g := (theta_g_h * radians 15)%R in
  let theta := (theta_g + rlong)%R in
  let tau := (theta - alpha)%R in
  (* finally calculate azimuth and elevation *)
  let azim := atan2 (sin tau)
                (cos tau * sin rlat - tan delta * cos rlat)%R in
  let elev := asin (cos delta * cos tau * cos rlat + sin delta * sin rlat)%R in
  (* move to north clockwise convention *)
  let azim := wrap_to_pi (azim + PI) in
  (azim, elev).

(** ** Scene composer *)

Definition sun (i : Z) (st : state) : result state :=
  r <- set_area i 7 (127, 255, 0, 0) (50, 255, 0, 0) false st ;; OK (snd r).

Definition moon (i : Z) (st : state) : result state :=
  r <- set_area i 7 (0, 0, 200, 0) (0, 0, 0, 10) false st ;; OK (snd r).

Definition paris (st : state) : result state :=
  st <- uni ambient st ;;
  r <- set_area 1 5 river ambient false st ;;
  r <- set_area 65 5 river ambient false (snd r) ;;
  r <- set_area 142 3 river ambient false (snd r) ;;
  OK (snd r).

(** The body of [solar] once the position and the mapped index are known:
    [if i is not None: sun(i) if elev > 0. else moon(i)]. *)
Definition solar_marker (i : option Z) (elev : R) (st : state) : result state :=
  match i with
  | Some i => if Rltb 0 elev then sun i st else moon i st
  | None => OK st
  end.

Definition solar (lat_long_deg : R * R) (utc_time : date_time) (st : state)
  : result state :=
  let '(azim, elev) := calc_solar_position lat_long_deg utc_time in
  let i := intersect_angle_frame (northclockwise2math azim) in
  solar_marker i elev st.

(** [intersect_angle_frame(...) * 4]: multiplying [None] raises [TypeError]. *)
Definition times4 (i : option Z) : result Z :=
  match i with
  | Some i => OK (i * 4)
  | None => Raise TypeError
  end.

(** The body of [clock] once the three hands are mapped, hour hand first. *)
Definition clock_hands (mapped : list (option Z)) (st : state) : result state :=
  indices <- map_m times4 mapped ;;
  let i0 := nth 0 indices 0 in
  let i1 := nth 1 indices 0 in
  let i2 := nth 2 indices 0 in
  a <- bytearray (channels ambient) ;;
  r <- bytearray (channels river) ;;
  h <- bytearray [0; 0; 0; 128] ;;
  let l := zeros (n * 4) in
  let l := setslice l i2 (i2 + 4) a in
  let l := setslice l i1 (i1 + 4) r in
  let l := setslice l i0 (i0 + 4) h in
  OK (neopixel_write (with_leds_0 st l)).

(** [clock], with [h, m, s = utime.localtime()[3:6]] as arguments. *)
Definition clock (h m s : Z) (st : state) : result state :=
  let a_h := (((IZR ((h + 1) mod 12) + IZR m / 60) / 12) * 2 * PI)%R in
  let a_m := (IZR m / 60 * 2 * PI)%R in
  let a_s := (IZR s / 60 * 2 * PI)%R in
  clock_hands
    (map (fun x => intersect_angle_frame (northclockwise2math x)) [a_h; a_m; a_s])
    st.



(** ** Vocabulary of the statements *)

(** The byte at offset [k] of a buffer. *)
Definition byte_at (l : list Z) (k : Z) : Z := nth (Z.to_nat k) l 0.

(** A buffer of [n] pixels of four bytes each. *)
Definition byte_buffer (l : list Z) : Prop :=
  Z.of_nat (length l) = n * 4 /\ forallb is_byte l = true.

(** Both buffers hold exactly [n] pixels. *)
Definition sized (st : state) : Prop :=
  Z.of_nat (length (leds_0 st)) = n * 4 /\ Z.of_nat (length (leds_1 st)) = n * 4.

(** The buffer [set_area] leaves alone. *)
Definition unpainted (direct : bool) (st : state) : list Z :=
  if direct then leds_1 st else leds_0 st.

Definition well_formed (st : state) : Prop :=
  byte_buffer (leds_0 st) /\ byte_buffer (leds_1 st).

(** The byte offsets one step of [apply] visits, in order. *)
Definition affected (pixels : option (list Z)) : list Z :=
  if truthy pixels
  then flat_map (fun j => range j (j + 4))
         (match pixels with Some p => p | None => [] end)
  else range 0 (n * 4).

(** A pixel set as [set_area] returns it: byte offsets of whole pixels. *)
Definition valid_pixels (pixels : option (list Z)) : Prop :=
  match pixels with
  | Some p => forall j, In j p -> 0 <= j /\ j + 4 <= n * 4
  | None => True
  end.

Definition byte_color (c : color) : Prop := forallb is_byte (channels c) = true.

(** The four bytes of pixel [p] of a buffer. *)
Definition pixel_at (l : list Z) (p : Z) : list Z :=
  map (fun ch => byte_at l (p * 4 + ch)) [0; 1; 2; 3].

(** The buffer [set_area] paints: [leds_0] when [direct], else [leds_1]. *)
Definition painted (direct : bool) (st : state) : list Z :=
  if direct then leds_0 st else leds_1 st.

(** [i] lies on the arc of side [s]. *)
Definition in_arc (s : side) (i : Z) : bool :=
  (arc_start (cardinals s) <=? i) && (i <? arc_end (cardinals s)).

(** The Julian day formula of Fliegel and Van Flandern as published, with
    integer division truncating toward zero. *)
Definition jd_truncating (year month day : Z) : Z :=
  (1461 * (year + 4800 + (month - 14) ÷ 12)) ÷ 4
  + (367 * (month - 2 - 12 * ((month - 14) ÷ 12))) ÷ 12
  - (3 * ((year + 4900 + (month - 14) ÷ 12) ÷ 100)) ÷ 4
  + day - 32075.

(** A buffer of [n] pixels, all of color [c]: what [uni c] leaves in [leds_1]. *)
Definition filled (c : color) : list Z :=
  concat (repeat (channels c) (Z.to_nat n)).

(** Dark LEDs about to fade to the ambient wash. *)
Definition fading_state : state := mkState (zeros (n * 4)) (filled ambient) [].

(** *** The scenario of the specification: Paris at noon UTC, 27 January 2019

    The intermediate quantities of [calc_solar_position] on that input,
    before the range reductions that leave sines and cosines alone. *)

Definition paris_coords : R * R := (48860536 / 1000000, 2332237 / 1000000)%R.

Definition noon_2019_01_27 : date_time := mkDateTime 2019 1 27 12 0 0 6 27.

Definition noon_days : R := IZR (jd 2019 1 27 - 2451545).

Definition noon_L : R :=
  (radians (280460 / 1000) + radians (9856474 / 10000000) * noon_days)%R.

Definition noon_g : R :=
  (radians (357528 / 1000) + radians (9856003 / 10000000) * noon_days)%R.

Definition noon_A : R :=
  (noon_L + radians (1915 / 1000) * sin noon_g
   + radians (1997 / 100000) * sin (2 * noon_g))%R.

Definition noon_e : R :=
  (radians (23439 / 1000) - radians (4 / 10000000) * noon_days)%R.

Definition noon_x : R := (cos noon_e * (sin noon_A / cos noon_A))%R.

Definition noon_alpha : R :=
  if Rltb 0 (cos noon_A) then atan noon_x else (atan noon_x + PI)%R.

Definition noon_sd : R := (sin noon_e * sin noon_A)%R.

Definition noon_theta : R :=
  (Rmod (6697376 / 1000000 + 240005134 / 100000 * (noon_days / 36525)
         + 1002738 / 1000000 * (IZR 12 + IZR 0 / 60)) 24
   * radians 15 + radians (snd paris_coords))%R.

Definition noon_tau : R := (noon_theta - noon_alpha)%R.

Definition noon_lat : R := radians (fst paris_coords).

(** The alternating Taylor sums that enclose sine and cosine on the first
    quadrant. *)
Definition sin_low (a : R) : R := (a - a ^ 3 / 6 + a ^ 5 / 120 - a ^ 7 / 5040)%R.
Definition sin_high (a : R) : R := (sin_low a + a ^ 9 / 362880)%R.
Definition cos_low (a : R) : R := (1 - a ^ 2 / 2 + a ^ 4 / 24 - a ^ 6 / 720)%R.
Definition cos_high (a : R) : R := (cos_low a + a ^ 8 / 40320)%R.

(** ** Scenes on a timer *)

(** [paris_solaire], with the reading of [utime.localtime()] as argument;
    [apply()] takes its defaults: ten steps over the whole strip. *)
Definition paris_solaire (now : date_time) (st : state) : result state :=
  st <- paris st ;;
  st <- solar (48860536 / 1000000, 2332237 / 1000000)%R now st ;;
  apply 10 None st.

(** [range(a, b, step)] for a positive [step]. *)
Definition range_step (a b step : Z) : list Z :=
  map (fun k => a + step * Z.of_nat k)
    (seq 0 (Z.to_nat ((b - a + step - 1) / step))).

(** [solar_demo], without the two calls that stop and restart the timer. *)
Definition solar_demo (st : state) : result state :=
  st <- paris st ;;
  st <- apply 10 None st ;;
  st <- for_each (range 0 24)
          (fun i =>
             for_each (range_step 0 60 10)
               (fun j st =>
                  st <- paris st ;;
                  st <- solar (48860536 / 1000000, 2332237 / 1000000)%R
                          (mkDateTime 2019 1 27 i j 0 6 27) st ;;
                  apply 3 None st))
          st ;;
  st <- paris st ;;
  apply 10 None st.

(** [time], without the timer calls and the one-second sleeps; [now i] is
    [utime.localtime()[3:6]] as the [i]-th call of [clock] reads it. *)
Definition time (now : Z -> Z * Z * Z) (st : state) : result state :=
  st <- for_each (range 0 20)
          (fun i st => let '(h, m, s) := now i in clock h m s st) st ;;
  apply 10 None st.

(** ** Vocabulary of the further properties *)

(** The interpolation parameter of [set_area] at position [i]:
    [math.fabs((center - i - d) / size)]. *)
Definition gradient_t (center size i : Z) : Q :=
  Qabs ((inject_Z center - inject_Z i
         - (if size mod 2 =? 0 then 1 # 2 else 0)) / inject_Z size)%Q.

(** The target [paris] leaves behind, computed from the power-on state. *)
Definition paris_scene : list Z :=
  match paris initial with
  | OK s => leds_1 s
  | Raise _ => []
  end.

(** The color [paris] gives pixel [p]: the three river windows, each shaded
    by [set_area] from [river] at its center, on the ambient wash. *)
Definition paris_color (p : Z) : color :=
  if (141 <=? p) && (p <=? 143)
  then interpolate_rgbw river ambient (gradient_t 142 3 p)
  else if (63 <=? p) && (p <=? 67)
  then interpolate_rgbw river ambient (gradient_t 65 5 p)
  else if (0 <=? p) && (p <=? 3)
  then interpolate_rgbw river ambient (gradient_t 1 5 p)
  else if p =? n - 1
  then interpolate_rgbw river ambient (gradient_t 1 5 (-1))
  else ambient.

Definition same_pixel (a b : list Z) : bool :=
  if list_eq_dec Z.eq_dec a b then true else false.

(** [v] lies between [a] and [b], whichever is larger. *)
Definition in_between (a b v : Z) : Prop := Z.min a b <= v <= Z.max a b.

(** Every byte of [l] lies between the byte of [from] and the byte of [to]
    at the same offset. *)
Definition on_the_way (from to l : list Z) : Prop :=
  forall k, 0 <= k < n * 4 -> in_between (byte_at from k) (byte_at to k) (byte_at l k).

(** The line of the side [s] of a frame of half width [w2], half height [h2]. *)
Definition on_side (w2 h2 : R) (s : side) (x y : R) : Prop :=
  match s with
  | north => y = h2
  | east => x = w2
  | south => y = (- h2)%R
  | west => x = (- w2)%R
  end.

(** The colors of the marker of [solar]: [sun(i) if elev > 0. else moon(i)],
    primary first. *)
Definition marker_colors (elev : R) : color * color :=
  if Rltb 0 elev then ((127, 255, 0, 0), (50, 255, 0, 0))
  else ((0, 0, 200, 0), (0, 0, 0, 10)).

(** The pixels of a marker centered at [i], of colors [m], over a
    background: [over p] elsewhere. *)
Definition marker_over (i : Z) (m : color * color) (over : Z -> list Z) (p : Z)
  : list Z :=
  let d := (p - i) mod n in
  if d <=? 3
  then channels (interpolate_rgbw (fst m) (snd m) (gradient_t i 7 (i + d)))
  else if n - 3 <=? d
  then channels (interpolate_rgbw (fst m) (snd m) (gradient_t i 7 (i + d - n)))
  else over p.

(** The angles of the three hands of [clock], north clockwise: hours,
    minutes, seconds. *)
Definition hand_angles (h m s : Z) : R * R * R :=
  ((IZR ((h + 1) mod 12) + IZR m / 60) / 12 * 2 * PI,
   IZR m / 60 * 2 * PI,
   IZR s / 60 * 2 * PI)%R.

(** The pixel [clock] shows at [p] for hands mapped to [i0] (hours), [i1]
    (minutes) and [i2] (seconds): the hand written last wins. *)
Definition clock_face (i0 i1 i2 p : Z) : color :=
  if p =? i0 then (0, 0, 0, 128)
  else if p =? i1 then river
  else if p =? i2 then ambient
  else off.

(** * Properties *)

(** ** Rational arithmetic of the interpolation *)

Lemma Qltb_true (x y : Q) : Qltb x y = true <-> (x < y)%Q.
Proof.
  unfold Qltb. rewrite negb_true_iff. split; intro H.
  - apply Qnot_le_lt. intro Hle. apply Qle_bool_iff in Hle. congruence.
  - destruct (Qle_bool y x) eqn:E; [|reflexivity].
    apply Qle_bool_iff in E. exfalso. apply (Qlt_not_le _ _ H E).
Qed.

Lemma Qltb_false (x y : Q) : Qltb x y = false <-> (y <= x)%Q.
Proof.
  unfold Qltb. rewrite negb_false_iff. apply Qle_bool_iff.
Qed.

Lemma clampQ_unit (v : Q) : (0 <= clampQ v 0 1 <= 1)%Q.
Proof.
  unfold clampQ, Qmax_py, Qmin_py.
  destruct (Qltb 1 v) eqn:E1.
  - destruct (Qltb 1 0) eqn:E2.
    + apply Qltb_true in E2. lra.
    + lra.
  - apply Qltb_false in E1.
    destruct (Qltb v 0) eqn:E2.
    + lra.
    + apply Qltb_false in E2. lra.
Qed.

Lemma clampQ_one (v : Q) : (v == 1)%Q -> (clampQ v 0 1 == 1)%Q.
Proof.
  intro H. unfold clampQ, Qmax_py, Qmin_py.
  destruct (Qltb 1 v) eqn:E1.
  - apply Qltb_true in E1. lra.
  - destruct (Qltb v 0) eqn:E2.
    + apply Qltb_true in E2. lra.
    + exact H.
Qed.

Lemma inject_Z_sub (x y : Z) : (inject_Z (x - y) == inject_Z x - inject_Z y)%Q.
Proof.
  unfold Z.sub. rewrite inject_Z_plus, inject_Z_opp. reflexivity.
Qed.

(** [int] of a float that holds an integer is that integer. *)
Lemma int_of_Q_inject (q : Q) (z : Z) : (q == inject_Z z)%Q -> int_of_Q q = z.
Proof.
  unfold Qeq, int_of_Q. simpl. intro H.
  rewrite Z.mul_1_r in H. rewrite H. apply Z.quot_mul. discriminate.
Qed.

Lemma int_of_Q_between (q : Q) (lo hi : Z) :
  0 <= lo -> (inject_Z lo <= q <= inject_Z hi)%Q -> lo <= int_of_Q q <= hi.
Proof.
  unfold Qle, int_of_Q. simpl. intros Hlo [H1 H2].
  rewrite Z.mul_1_r in H1, H2.
  assert (Hd : 0 < Z.pos (Qden q)) by reflexivity.
  assert (Hn : 0 <= Qnum q) by nia.
  rewrite Z.quot_div_nonneg by lia.
  split.
  - apply Z.div_le_lower_bound; lia.
  - apply Z.div_le_upper_bound; lia.
Qed.

Lemma interpolate_between (a b : Z) (t : Q) :
  (inject_Z (Z.min a b) <= interpolate a b t <= inject_Z (Z.max a b))%Q.
Proof.
  unfold interpolate. pose proof (clampQ_unit t) as [H0 H1].
  set (c := clampQ t 0 1) in *. clearbody c.
  rewrite inject_Z_sub.
  destruct (Z_le_gt_dec a b) as [Hab|Hab].
  - rewrite Z.min_l, Z.max_r by lia.
    assert (Hq : (inject_Z a <= inject_Z b)%Q) by (rewrite <- Zle_Qle; exact Hab).
    split; nra.
  - rewrite Z.min_r, Z.max_l by lia.
    assert (Hq : (inject_Z b <= inject_Z a)%Q) by (rewrite <- Zle_Qle; lia).
    split; nra.
Qed.

(** At fraction one the interpolation lands on the target exactly. *)
Lemma interpolate_at_one (a b : Z) (t : Q) :
  (t == 1)%Q -> int_of_Q (interpolate a b t) = b.
Proof.
  intro H. apply int_of_Q_inject. unfold interpolate.
  rewrite (clampQ_one t H), inject_Z_sub. ring.
Qed.

(** Between equal endpoints the interpolation is constant. *)
Lemma interpolate_same (a : Z) (t : Q) : int_of_Q (interpolate a a t) = a.
Proof.
  apply int_of_Q_inject. unfold interpolate.
  rewrite inject_Z_sub. ring.
Qed.

(** ** Loops and byte arrays *)

Lemma in_range (a b k : Z) : In k (range a b) <-> a <= k < b.
Proof.
  unfold range. rewrite in_map_iff. split.
  - intros [i [<- Hi]]. apply in_seq in Hi. lia.
  - intros H. exists (Z.to_nat (k - a)). split; [lia|]. apply in_seq. lia.
Qed.

Lemma range_snoc (a b : Z) : a <= b -> range a (b + 1) = range a b ++ [b].
Proof.
  intro H. unfold range.
  replace (Z.to_nat (b + 1 - a)) with (S (Z.to_nat (b - a))) by lia.
  rewrite seq_S, map_app. simpl. do 2 f_equal. lia.
Qed.

Lemma for_each_app {A S : Type} (l1 l2 : list A) (body : A -> S -> result S) (s : S) :
  for_each (l1 ++ l2) body s = (s' <- for_each l1 body s ;; for_each l2 body s').
Proof.
  revert s. induction l1 as [|x l1 IH]; intro s; simpl; [reflexivity|].
  destruct (body x s); simpl; [apply IH|reflexivity].
Qed.

Lemma for_each_flat_map {A B S : Type} (f : A -> list B) (body : B -> S -> result S)
    (l : list A) (s : S) :
  for_each l (fun j => for_each (f j) body) s = for_each (flat_map f l) body s.
Proof.
  revert s. induction l as [|x l IH]; intro s; simpl; [reflexivity|].
  rewrite for_each_app. destruct (for_each (f x) body s); simpl; [apply IH|reflexivity].
Qed.

(** A loop whose body keeps an invariant indexed by the elements already
    visited runs to completion and establishes it for the whole list. *)
Lemma for_each_invariant {A S : Type} (body : A -> S -> result S) (l : list A) :
  forall (P : list A -> S -> Prop) (s : S),
    P [] s ->
    (forall p x s, In x l -> P p s -> exists s', body x s = OK s' /\ P (p ++ [x]) s') ->
    exists s', for_each l body s = OK s' /\ P l s'.
Proof.
  induction l as [|x l IH]; intros P s H0 Hstep; simpl.
  - exists s. split; [reflexivity|exact H0].
  - destruct (Hstep [] x s (or_introl eq_refl) H0) as [s1 [E1 P1]].
    rewrite E1. simpl.
    apply (IH (fun p => P (x :: p)) s1 P1).
    intros p y s2 Hy Hp.
    apply (Hstep (x :: p) y s2 (or_intror Hy) Hp).
Qed.

Lemma length_list_set (buf : list Z) (k : nat) (v : Z) :
  length (list_set buf k v) = length buf.
Proof.
  revert k. induction buf as [|hd tl IH]; intros [|k]; simpl; auto.
Qed.

Lemma nth_list_set (buf : list Z) (k j : nat) (v : Z) :
  (k < length buf)%nat ->
  nth j (list_set buf k v) 0 = if Nat.eqb j k then v else nth j buf 0.
Proof.
  revert k j. induction buf as [|hd tl IH]; intros k j Hk; simpl in Hk; [lia|].
  destruct k as [|k], j as [|j]; simpl; try reflexivity.
  apply IH. lia.
Qed.

Lemma forallb_list_set (f : Z -> bool) (buf : list Z) (k : nat) (v : Z) :
  forallb f buf = true -> f v = true -> forallb f (list_set buf k v) = true.
Proof.
  intros H Hv. revert k H. induction buf as [|hd tl IH]; intros [|k] H; simpl in *;
    auto; apply andb_true_iff in H; destruct H as [H1 H2]; apply andb_true_iff; auto.
Qed.

Lemma is_byte_iff (v : Z) : is_byte v = true <-> 0 <= v <= 255.
Proof. unfold is_byte. rewrite andb_true_iff. lia. Qed.

Lemma getitem_in_range (buf : list Z) (k : Z) :
  0 <= k < Z.of_nat (length buf) -> getitem buf k = OK (byte_at buf k).
Proof.
  intro H. unfold getitem, norm_index, byte_at.
  destruct (k <? 0) eqn:E; [lia|].
  destruct (0 <=? k) eqn:E1; [|lia].
  destruct (k <? Z.of_nat (length buf)) eqn:E2; [|lia].
  reflexivity.
Qed.

Lemma setitem_in_range (buf : list Z) (k v : Z) :
  0 <= k < Z.of_nat (length buf) -> 0 <= v <= 255 ->
  setitem buf k v = OK (list_set buf (Z.to_nat k) v).
Proof.
  intros H Hv. unfold setitem, norm_index.
  destruct (k <? 0) eqn:E; [lia|].
  destruct (0 <=? k) eqn:E1; [|lia].
  destruct (k <? Z.of_nat (length buf)) eqn:E2; [|lia].
  apply is_byte_iff in Hv. simpl. rewrite Hv. reflexivity.
Qed.

Lemma byte_at_bounds (buf : list Z) (k : Z) :
  byte_buffer buf -> 0 <= k < n * 4 -> 0 <= byte_at buf k <= 255.
Proof.
  intros [Hlen Hall] Hk. unfold byte_at. apply is_byte_iff.
  rewrite forallb_forall in Hall. apply Hall. apply nth_In. lia.
Qed.

(** ** The animator: [apply] *)

(** One byte of one step: the store succeeds, the new byte is the truncated
    interpolation, every other byte is kept, and the state stays well formed. *)
Lemma blend_byte_spec (t : Q) (k : Z) (st : state) :
  well_formed st -> 0 <= k < n * 4 ->
  exists st',
    blend_byte t k st = OK st' /\ well_formed st' /\
    leds_1 st' = leds_1 st /\ wire st' = wire st /\
    byte_at (leds_0 st') k
      = int_of_Q (interpolate (byte_at (leds_0 st) k) (byte_at (leds_1 st) k) t) /\
    (forall j, 0 <= j -> j <> k -> byte_at (leds_0 st') j = byte_at (leds_0 st) j).
Proof.
  intros [[L0 B0] [L1 B1]] Hk.
  set (v := int_of_Q (interpolate (byte_at (leds_0 st) k) (byte_at (leds_1 st) k) t)).
  assert (Hv : 0 <= v <= 255).
  { pose proof (byte_at_bounds (leds_0 st) k (conj L0 B0) Hk) as Ha.
    pose proof (byte_at_bounds (leds_1 st) k (conj L1 B1) Hk) as Hb.
    pose proof (interpolate_between (byte_at (leds_0 st) k) (byte_at (leds_1 st) k) t)
      as Hi.
    pose proof (int_of_Q_between _ _ _ (Z.min_glb _ _ _ (proj1 Ha) (proj1 Hb)) Hi).
    fold v in H. lia. }
  exists (with_leds_0 st (list_set (leds_0 st) (Z.to_nat k) v)).
  split; [|split; [|split; [|split; [|split]]]].
  - unfold blend_byte.
    rewrite !getitem_in_range by lia. simpl.
    fold v. rewrite setitem_in_range by lia. reflexivity.
  - split; [split|split]; simpl; auto.
    + rewrite length_list_set. exact L0.
    + apply forallb_list_set; auto. apply is_byte_iff. exact Hv.
  - reflexivity.
  - reflexivity.
  - simpl. unfold byte_at at 1. rewrite nth_list_set by lia.
    rewrite Nat.eqb_refl. reflexivity.
  - intros j Hj Hne. simpl. unfold byte_at. rewrite nth_list_set by lia.
    destruct (Nat.eqb (Z.to_nat j) (Z.to_nat k)) eqn:E; [|reflexivity].
    apply Nat.eqb_eq in E. lia.
Qed.

(** One pass of [blend_byte] over valid offsets: it completes, touches only
    the offsets it visits, and at fraction one leaves the target in each. *)
Lemma blend_pass (t : Q) (ks : list Z) (st : state) :
  well_formed st -> (forall k, In k ks -> 0 <= k < n * 4) ->
  exists st',
    for_each ks (blend_byte t) st = OK st' /\ well_formed st' /\
    leds_1 st' = leds_1 st /\ wire st' = wire st /\
    (forall j, 0 <= j -> ~ In j ks -> byte_at (leds_0 st') j = byte_at (leds_0 st) j) /\
    ((t == 1)%Q -> forall k, In k ks -> byte_at (leds_0 st') k = byte_at (leds_1 st) k).
Proof.
  intros Hwf Hks.
  destruct (for_each_invariant (blend_byte t) ks
    (fun p s =>
       (forall k, In k p -> 0 <= k < n * 4) /\
       well_formed s /\ leds_1 s = leds_1 st /\ wire s = wire st /\
       (forall j, 0 <= j -> ~ In j p -> byte_at (leds_0 s) j = byte_at (leds_0 st) j) /\
       ((t == 1)%Q -> forall k, In k p -> byte_at (leds_0 s) k = byte_at (leds_1 st) k))
    st) as [st' [E (_ & Hwf' & H1 & Hw & Hout & Hin)]].
  - split; [intros k []|]. repeat split; try apply Hwf; auto. intros _ k [].
  - intros p x s Hx (Hp & Hwf' & H1 & Hw & Hout & Hin).
    destruct (blend_byte_spec t x s Hwf' (Hks x Hx))
      as [s' (E & Hwf'' & H1' & Hw' & Hk & Hothers)].
    exists s'. split; [exact E|].
    split; [|split; [|split; [|split; [|split]]]].
    + intros k Hk'. apply in_app_or in Hk'. destruct Hk' as [Hk'|[<-|[]]]; auto.
    + exact Hwf''.
    + congruence.
    + congruence.
    + intros j Hj Hnot. rewrite Hothers.
      * apply Hout; auto. intro Hjp. apply Hnot. apply in_or_app. auto.
      * exact Hj.
      * intros ->. apply Hnot. apply in_or_app. right. left. reflexivity.
    + intros Ht k Hk'. destruct (Z.eq_dec k x) as [->|Hne].
      * rewrite Hk, interpolate_at_one by exact Ht. rewrite H1. reflexivity.
      * apply in_app_or in Hk'. destruct Hk' as [Hk'|[Hk'|[]]]; [|congruence].
        rewrite Hothers; auto. apply (Hp k Hk').
  - exists st'. auto 10.
Qed.

Lemma affected_valid (pixels : option (list Z)) (k : Z) :
  valid_pixels pixels -> In k (affected pixels) -> 0 <= k < n * 4.
Proof.
  unfold affected, valid_pixels. intros Hv Hk.
  destruct pixels as [[|j0 p]|]; simpl truthy in Hk; cbv iota in Hk;
    try (apply in_range in Hk; lia).
  apply in_flat_map in Hk. destruct Hk as [j' [Hj' Hk]].
  apply in_range in Hk. specialize (Hv j' Hj'). lia.
Qed.

(** The two loops of one step of [apply] visit exactly [affected pixels]. *)
Lemma apply_step_affected (steps : Z) (pixels : option (list Z)) (i : Z) (st : state) :
  steps <> 0 ->
  apply_step steps pixels i st =
    (st' <- for_each (affected pixels)
              (blend_byte (inject_Z (i + 1) / inject_Z steps)%Q) st ;;
     OK (neopixel_write st')).
Proof.
  intro Hs. unfold apply_step, affected, true_div.
  destruct (steps =? 0) eqn:E; [lia|]. simpl.
  destruct (truthy pixels); [rewrite for_each_flat_map|]; reflexivity.
Qed.

Lemma apply_step_spec (steps : Z) (pixels : option (list Z)) (i : Z) (st : state) :
  steps <> 0 -> well_formed st -> valid_pixels pixels ->
  exists st',
    apply_step steps pixels i st = OK st' /\ well_formed st' /\
    leds_1 st' = leds_1 st /\ wire st' = wire st ++ [leds_0 st'] /\
    (forall j, 0 <= j -> ~ In j (affected pixels) ->
       byte_at (leds_0 st') j = byte_at (leds_0 st) j) /\
    ((inject_Z (i + 1) / inject_Z steps == 1)%Q ->
     forall k, In k (affected pixels) -> byte_at (leds_0 st') k = byte_at (leds_1 st) k).
Proof.
  intros Hs Hwf Hv.
  destruct (blend_pass (inject_Z (i + 1) / inject_Z steps)%Q (affected pixels) st Hwf)
    as [s (E & Hwf' & H1 & Hw & Hout & Hin)].
  { intros k Hk. apply (affected_valid pixels k Hv Hk). }
  exists (neopixel_write s). rewrite apply_step_affected, E by exact Hs. simpl.
  repeat split; try apply Hwf'; auto.
  rewrite Hw. reflexivity.
Qed.

(** [apply] runs to completion and its last step, at fraction
    [steps / steps], copies the target into every affected byte. *)
Lemma apply_converges (steps : Z) (pixels : option (list Z)) (st : state) :
  1 <= steps -> well_formed st -> valid_pixels pixels ->
  exists st',
    apply steps pixels st = OK st' /\ well_formed st' /\
    leds_1 st' = leds_1 st /\
    (exists frames, wire st' = wire st ++ frames ++ [leds_0 st']
                    /\ Z.of_nat (length frames) = steps - 1) /\
    (forall j, 0 <= j -> ~ In j (affected pixels) ->
       byte_at (leds_0 st') j = byte_at (leds_0 st) j) /\
    (forall k, In k (affected pixels) -> byte_at (leds_0 st') k = byte_at (leds_1 st) k).
Proof.
  intros Hs Hwf Hv. unfold apply.
  assert (Hr : range 0 steps = range 0 (steps - 1) ++ [steps - 1]).
  { rewrite <- range_snoc by lia. f_equal. lia. }
  rewrite Hr, for_each_app.
  destruct (for_each_invariant (apply_step steps pixels) (range 0 (steps - 1))
    (fun p s =>
       well_formed s /\ leds_1 s = leds_1 st /\
       (exists frames, wire s = wire st ++ frames /\ length frames = length p) /\
       (forall j, 0 <= j -> ~ In j (affected pixels) ->
          byte_at (leds_0 s) j = byte_at (leds_0 st) j))
    st) as [s [E (Hwf' & H1 & [frames [Hw Hlen]] & Hout)]].
  - repeat split; try apply Hwf; auto.
    exists []. rewrite app_nil_r. auto.
  - intros p i s _ (Hwf' & H1 & [frames [Hw Hlen]] & Hout).
    destruct (apply_step_spec steps pixels i s ltac:(lia) Hwf' Hv)
      as [s' (E & Hwf'' & H1' & Hw' & Hout' & _)].
    exists s'. split; [exact E|].
    repeat split; try apply Hwf''; try congruence.
    + exists (frames ++ [leds_0 s']). rewrite Hw', Hw, <- app_assoc.
      split; [reflexivity|]. rewrite !length_app. simpl. lia.
    + intros j Hj Hnot. rewrite Hout' by assumption. apply Hout; assumption.
  - rewrite E. simpl.
    destruct (apply_step_spec steps pixels (steps - 1) s ltac:(lia) Hwf' Hv)
      as [s' (E' & Hwf'' & H1' & Hw' & Hout' & Hin')].
    exists s'. rewrite E'.
    split; [reflexivity|]. split; [exact Hwf''|]. split; [congruence|].
    split; [|split].
    + exists frames. rewrite Hw', Hw, <- app_assoc. split; [reflexivity|].
      rewrite Hlen. unfold range. rewrite length_map, length_seq. lia.
    + intros j Hj Hnot. rewrite Hout' by assumption. apply Hout; assumption.
    + intros k Hk. rewrite Hin'; [congruence| |exact Hk].
      replace (steps - 1 + 1) with steps by lia.
      apply Qmult_inv_r. intro H0.
      apply (inject_Z_injective steps 0) in H0. lia.
Qed.

(** ** Slices and [set_area] *)

Lemma setslice_pixel (buf v : list Z) (p : Z) :
  Z.of_nat (length buf) = n * 4 -> 0 <= p < n ->
  setslice buf (p * 4) (p * 4 + 4) v
  = firstn (Z.to_nat (p * 4)) buf ++ v ++ skipn (Z.to_nat (p * 4 + 4)) buf.
Proof.
  intros Hlen Hp. unfold setslice, adjust. rewrite Hlen.
  destruct (p * 4 <? 0) eqn:E1; [lia|].
  destruct (p * 4 + 4 <? 0) eqn:E2; [lia|].
  rewrite (Z.min_l (p * 4)), (Z.min_l (p * 4 + 4)), Z.max_l by lia.
  reflexivity.
Qed.

Lemma length_setslice_pixel (buf v : list Z) (p : Z) :
  Z.of_nat (length buf) = n * 4 -> 0 <= p < n -> length v = 4%nat ->
  length (setslice buf (p * 4) (p * 4 + 4) v) = length buf.
Proof.
  intros Hlen Hp Hv. rewrite setslice_pixel by assumption.
  rewrite !length_app, length_firstn, length_skipn, Hv. lia.
Qed.

Lemma byte_at_setslice_pixel (buf v : list Z) (p k : Z) :
  Z.of_nat (length buf) = n * 4 -> 0 <= p < n -> length v = 4%nat -> 0 <= k ->
  byte_at (setslice buf (p * 4) (p * 4 + 4) v) k
  = if (p * 4 <=? k) && (k <? p * 4 + 4)
    then nth (Z.to_nat (k - p * 4)) v 0
    else byte_at buf k.
Proof.
  intros Hlen Hp Hv Hk. rewrite setslice_pixel by assumption. unfold byte_at.
  assert (Hf : length (firstn (Z.to_nat (p * 4)) buf) = Z.to_nat (p * 4)).
  { rewrite length_firstn. lia. }
  destruct (p * 4 <=? k) eqn:E1; simpl.
  - destruct (k <? p * 4 + 4) eqn:E2.
    + rewrite app_nth2 by lia. rewrite app_nth1 by lia. f_equal. lia.
    + rewrite app_nth2 by lia. rewrite app_nth2 by lia.
      rewrite nth_skipn. f_equal. lia.
  - rewrite app_nth1 by lia. rewrite nth_firstn.
    destruct (Z.to_nat k <? Z.to_nat (p * 4))%nat eqn:E; [reflexivity|].
    apply Nat.ltb_ge in E. lia.
Qed.

Lemma pixel_at_setslice_same (buf : list Z) (c : color) (p : Z) :
  Z.of_nat (length buf) = n * 4 -> 0 <= p < n ->
  pixel_at (setslice buf (p * 4) (p * 4 + 4) (channels c)) p = channels c.
Proof.
  intros Hlen Hp. destruct c as [[[c0 c1] c2] c3].
  unfold pixel_at. simpl map.
  rewrite !byte_at_setslice_pixel by (try reflexivity; lia).
  repeat match goal with
         | |- context [(?a <=? ?b) && (?c <? ?d)] =>
             replace ((a <=? b) && (c <? d)) with true
               by (symmetry; apply andb_true_iff; split; lia)
         end.
  replace (p * 4 + 0 - p * 4) with 0 by lia.
  replace (p * 4 + 1 - p * 4) with 1 by lia.
  replace (p * 4 + 2 - p * 4) with 2 by lia.
  replace (p * 4 + 3 - p * 4) with 3 by lia.
  reflexivity.
Qed.

Lemma pixel_at_setslice_other (buf v : list Z) (p q : Z) :
  Z.of_nat (length buf) = n * 4 -> 0 <= p < n -> length v = 4%nat ->
  0 <= q -> q <> p ->
  pixel_at (setslice buf (p * 4) (p * 4 + 4) v) q = pixel_at buf q.
Proof.
  intros Hlen Hp Hv Hq Hne. unfold pixel_at. simpl map.
  rewrite !byte_at_setslice_pixel by (try assumption; lia).
  repeat match goal with
         | |- context [(?a <=? ?b) && (?c <? ?d)] =>
             replace ((a <=? b) && (c <? d)) with false
               by (symmetry; apply andb_false_iff; lia)
         end.
  reflexivity.
Qed.

Lemma length_channels (c : color) : length (channels c) = 4%nat.
Proof. destruct c as [[[c0 c1] c2] c3]. reflexivity. Qed.

Lemma interpolate_rgbw_same (c : color) (t : Q) : interpolate_rgbw c c t = c.
Proof.
  destruct c as [[[c0 c1] c2] c3]. unfold interpolate_rgbw.
  rewrite !interpolate_same. reflexivity.
Qed.

Lemma set_add_spec (x y : Z) (s : list Z) : In y (set_add x s) <-> y = x \/ In y s.
Proof.
  unfold set_add. destruct (existsb (Z.eqb x) s) eqn:E.
  - split; [auto|]. intros [->|H]; [|exact H].
    apply existsb_exists in E. destruct E as [z [Hz Ez]].
    apply Z.eqb_eq in Ez. subst z. exact Hz.
  - rewrite in_app_iff. simpl. intuition congruence.
Qed.

(** The window of [set_area] is not empty only for a positive [size]. *)
Lemma set_area_window (center size i : Z) :
  In i (range (center - size / 2) (center + size / 2 + size mod 2)) -> 0 < size.
Proof.
  intro H. apply in_range in H.
  pose proof (Z.div_mod size 2 ltac:(lia)). lia.
Qed.


(** What one completed iteration of [set_area] did: one slice store of four
    bytes at the offset of pixel [i mod n], recorded in [changed_leds]. *)
Lemma set_area_body_ok (center size : Z) (primary secondary : color) (direct : bool)
    (i : Z) (ch ch' : list Z) (s s' : state) :
  set_area_body center size primary secondary direct i (ch, s) = OK (ch', s') ->
  exists v, length v = 4%nat /\
    ch' = set_add (i mod n * 4) ch /\
    painted direct s'
      = setslice (painted direct s) (i mod n * 4) (i mod n * 4 + 4) v /\
    unpainted direct s' = unpainted direct s /\ wire s' = wire s.
Proof.
  unfold set_area_body. intro E.
  destruct (float_div _ size) as [q|e]; simpl in E; [|discriminate].
  unfold bytearray in E.
  destruct (forallb is_byte _); simpl in E; [|discriminate].
  injection E as <- <-.
  eexists. split; [apply length_channels|].
  destruct direct; simpl; auto.
Qed.

Lemma sized_painted (direct : bool) (s s' : state) (v : list Z) (p : Z) :
  sized s -> 0 <= p < n -> length v = 4%nat ->
  painted direct s' = setslice (painted direct s) (p * 4) (p * 4 + 4) v ->
  unpainted direct s' = unpainted direct s ->
  sized s'.
Proof.
  unfold sized. intros [H0 H1] Hp Hv Hpaint Hun.
  destruct direct; simpl in *; rewrite Hpaint, Hun;
    rewrite length_setslice_pixel by assumption; auto.
Qed.

Lemma sized_painted_length (direct : bool) (s : state) :
  sized s -> Z.of_nat (length (painted direct s)) = n * 4.
Proof. intros [H0 H1]. destruct direct; assumption. Qed.

Lemma mod_n_range (i : Z) : 0 <= i mod n < n.
Proof. apply Z.mod_pos_bound. reflexivity. Qed.


(** Painting with one color: the run completes and every pixel of the
    window holds that color. *)
Lemma set_area_same_color (center size : Z) (c : color) (direct : bool) (st : state) :
  byte_color c -> sized st ->
  exists changed st',
    set_area center size c c direct st = OK (changed, st') /\
    sized st' /\
    forall i, center - size / 2 <= i < center + size / 2 + size mod 2 ->
      pixel_at (painted direct st') (i mod n) = channels c.
Proof.
  intros Hc Hs. unfold set_area.
  destruct (for_each_invariant (set_area_body center size c c direct)
    (range (center - size / 2) (center + size / 2 + size mod 2))
    (fun p acc =>
       sized (snd acc) /\
       forall i, In i p -> pixel_at (painted direct (snd acc)) (i mod n) = channels c)
    ([], st)) as [[changed st'] [E [Hs' Hpix]]].
  - split; [exact Hs|]. intros i [].
  - intros p i [ch s] Hi [Hs' Hpix]. cbn [fst snd] in *.
    apply set_area_window in Hi.
    pose proof (mod_n_range i) as Hin.
    set (idx := i mod n * 4).
    set (s1 := if direct
               then with_leds_0 s (setslice (leds_0 s) idx (idx + 4) (channels c))
               else with_leds_1 s (setslice (leds_1 s) idx (idx + 4) (channels c))).
    assert (Eb : set_area_body center size c c direct i (ch, s)
                 = OK (set_add idx ch, s1)).
    { unfold set_area_body, float_div.
      destruct (size =? 0) eqn:E0; [lia|]. simpl.
      rewrite interpolate_rgbw_same. unfold bytearray.
      unfold byte_color in Hc. rewrite Hc. reflexivity. }
    exists (set_add idx ch, s1). split; [exact Eb|].
    destruct (set_area_body_ok _ _ _ _ _ _ _ _ _ _ Eb) as [v (Hv & _ & Hp & Hun & _)].
    assert (Hpaint : painted direct s1
                     = setslice (painted direct s) idx (idx + 4) (channels c)).
    { subst s1. destruct direct; reflexivity. }
    simpl. split.
    + apply (sized_painted direct s s1 (channels c) (i mod n));
        auto using length_channels.
    + intros j Hj. rewrite Hpaint. unfold idx.
      destruct (Z.eq_dec (j mod n) (i mod n)) as [->|Hne].
      * apply pixel_at_setslice_same; [apply sized_painted_length|]; assumption.
      * rewrite pixel_at_setslice_other;
          auto using length_channels, sized_painted_length.
        -- apply in_app_or in Hj. destruct Hj as [Hj|[<-|[]]]; [|congruence].
           apply Hpix. exact Hj.
        -- apply mod_n_range.
  - exists changed, st'. split; [exact E|]. split; [exact Hs'|].
    intros i Hi. apply Hpix. apply in_range. exact Hi.
Qed.

(** ** Angles *)

Local Open Scope R_scope.

Lemma atan2_range (y x : R) : - PI < atan2 y x <= PI.
Proof.
  unfold atan2. pose proof PI_RGT_0 as Hpi.
  pose proof (atan_bound (y / x)) as Hb.
  destruct (Rlt_dec 0 x) as [Hx|Hx]; [lra|].
  destruct (Rlt_dec x 0) as [Hx'|Hx'].
  - assert (Hinv : / x < 0) by (apply Rinv_lt_0_compat; exact Hx').
    destruct (Rle_dec 0 y) as [Hy|Hy].
    + assert (y / x <= 0) by (unfold Rdiv; nra).
      assert (atan (y / x) <= 0).
      { rewrite <- atan_0. destruct H as [H|H].
        - left. apply atan_increasing. exact H.
        - rewrite H. right. reflexivity. }
      lra.
    + assert (0 < y / x) by (unfold Rdiv; nra).
      assert (0 < atan (y / x)).
      { rewrite <- atan_0. apply atan_increasing. exact H. }
      lra.
  - destruct (Rlt_dec 0 y); [lra|]. destruct (Rlt_dec y 0); lra.
Qed.

Lemma cos_pos_interval (a : R) : - PI < a <= PI -> 0 < cos a -> - (PI / 2) < a < PI / 2.
Proof.
  intros Ha Hc. pose proof PI_RGT_0 as Hpi. split.
  - destruct (Rlt_dec (- (PI / 2)) a) as [H|H]; [exact H|].
    exfalso. assert (cos (- a) <= 0) by (apply cos_le_0; lra).
    rewrite cos_neg in H0. lra.
  - destruct (Rlt_dec a (PI / 2)) as [H|H]; [exact H|].
    exfalso. assert (cos a <= 0) by (apply cos_le_0; lra). lra.
Qed.

Lemma atan2_sin_cos (a : R) : - PI < a <= PI -> atan2 (sin a) (cos a) = a.
Proof.
  intros Ha. pose proof PI_RGT_0 as Hpi. unfold atan2.
  destruct (Rlt_dec 0 (cos a)) as [Hc|Hc].
  - change (sin a / cos a) with (tan a). apply atan_tan.
    apply cos_pos_interval; assumption.
  - destruct (Rlt_dec (cos a) 0) as [Hc'|Hc'].
    + destruct (Rle_dec 0 (sin a)) as [Hs|Hs].
      * (* second quadrant *)
        assert (Hq : PI / 2 < a).
        { destruct (Rlt_dec (PI / 2) a) as [H|H]; [exact H|]. exfalso.
          destruct (Rle_dec (- (PI / 2)) a) as [H1|H1].
          - assert (0 <= cos a) by (apply cos_ge_0; lra). lra.
          - destruct (Req_dec a 0) as [->|Hz].
            + lra.
            + assert (sin a < 0) by (apply sin_lt_0_var; lra). lra. }
        replace (sin a / cos a) with (tan (a - PI)).
        { rewrite atan_tan; lra. }
        unfold tan. replace (a - PI) with (- (PI - a)) by lra.
        rewrite sin_neg, cos_neg, sin_PI_x, Rtrigo_facts.cos_pi_minus.
        field. lra.
      * (* third quadrant *)
        assert (Hq : a < - (PI / 2)).
        { destruct (Rlt_dec a (- (PI / 2))) as [H|H]; [exact H|]. exfalso.
          destruct (Rle_dec a (PI / 2)) as [H1|H1].
          - assert (0 <= cos a) by (apply cos_ge_0; lra). lra.
          - assert (0 <= sin a) by (apply sin_ge_0; lra). lra. }
        replace (sin a / cos a) with (tan (a + PI)).
        { rewrite atan_tan; lra. }
        unfold tan. rewrite neg_sin, neg_cos. field. lra.
    + assert (Hz : cos a = 0) by lra.
      destruct (Rlt_dec 0 (sin a)) as [Hs|Hs].
      * destruct (Rtotal_order a (PI / 2)) as [H|[H|H]]; [|exact (eq_sym H)|]; exfalso.
        -- destruct (Rlt_dec (- (PI / 2)) a) as [H1|H1].
           ++ assert (0 < cos a) by (apply cos_gt_0; lra). lra.
           ++ destruct (Req_dec a (- (PI / 2))) as [->|Hne].
              ** rewrite sin_neg, sin_PI2 in Hs. lra.
              ** assert (sin a < 0) by (apply sin_lt_0_var; lra). lra.
        -- assert (cos a < 0) by (apply cos_lt_0; lra). lra.
      * destruct (Rlt_dec (sin a) 0) as [Hs'|Hs'].
        -- destruct (Rtotal_order a (- (PI / 2))) as [H|[H|H]]; [|exact (eq_sym H)|]; exfalso.
           ++ assert (cos (- a) < 0) by (apply cos_lt_0; lra).
              rewrite cos_neg in H0. lra.
           ++ destruct (Rlt_dec a (PI / 2)) as [H1|H1].
              ** assert (0 < cos a) by (apply cos_gt_0; lra). lra.
              ** assert (0 <= sin a) by (apply sin_ge_0; lra). lra.
        -- exfalso. assert (sin a = 0) by lra.
           pose proof (sin2_cos2 a) as H2. unfold Rsqr in H2. rewrite H, Hz in H2. lra.
Qed.

Lemma wrap_to_pi_range (x : R) : - PI < wrap_to_pi x <= PI.
Proof. apply atan2_range. Qed.

Lemma wrap_to_pi_fixed (a : R) : - PI < a <= PI -> wrap_to_pi a = a.
Proof. apply atan2_sin_cos. Qed.

Lemma wrap_to_pi_period (a : R) : wrap_to_pi (a + 2 * PI) = wrap_to_pi a.
Proof.
  unfold wrap_to_pi. replace (a + 2 * PI) with (a + PI + PI) by lra.
  rewrite !neg_sin, !neg_cos. rewrite !Ropp_involutive. reflexivity.
Qed.

Lemma Rltb_true (x y : R) : x < y -> Rltb x y = true.
Proof. intro H. unfold Rltb. destruct (Rlt_dec x y); [reflexivity|contradiction]. Qed.

Lemma Rltb_false (x y : R) : y <= x -> Rltb x y = false.
Proof. intro H. unfold Rltb. destruct (Rlt_dec x y); [lra|reflexivity]. Qed.

Lemma round_nearest (x : R) (z : Z) :
  IZR z - 1 / 2 < x < IZR z + 1 / 2 -> round x = z.
Proof.
  intros [Hlo Hhi]. unfold round.
  destruct (Rlt_dec x (IZR z)) as [Hx|Hx].
  - assert (Hf : Int_part x = (z - 1)%Z).
    { symmetry. apply Int_part_spec. rewrite minus_IZR. lra. }
    rewrite Hf, minus_IZR.
    rewrite Rltb_false by lra. rewrite Rltb_true by lra. lia.
  - assert (Hf : Int_part x = z).
    { symmetry. apply Int_part_spec. lra. }
    rewrite Hf. rewrite Rltb_true by lra. reflexivity.
Qed.

Lemma south_axis : cross (0, 0, 1) (cos (- PI / 2), sin (- PI / 2), 1) = (1, 0, 0).
Proof.
  replace (- PI / 2) with (- (PI / 2)) by lra.
  rewrite cos_neg, sin_neg, cos_PI2, sin_PI2.
  unfold cross, v0, v1, v2. simpl. f_equal; [f_equal|]; lra.
Qed.

Lemma Rabs_lt_false (x e : R) : e <= x \/ x <= - e -> Rltb (Rabs x) e = false.
Proof.
  intro H. apply Rltb_false. unfold Rabs. destruct (Rcase_abs x); lra.
Qed.

Lemma Rabs_lt_true (x e : R) : - e < x < e -> Rltb (Rabs x) e = true.
Proof.
  intro H. apply Rltb_true. unfold Rabs. destruct (Rcase_abs x); lra.
Qed.

Lemma south_intersection :
  get_border_intersections width height (1, 0, 0) = Some (south, (0, - (height / 2))).
Proof.
  unfold get_border_intersections. cbn [seq first_intersection].
  assert (E0 : border_intersection (width / 2) (height / 2) (1, 0, 0) 0 = None).
  { unfold border_intersection, frame, cross, v0, v1, v2, eps, width, height.
    cbn [nth Nat.modulo Nat.add Nat.sub fst snd Nat.divmod].
    rewrite Rabs_lt_false by lra. rewrite Rabs_lt_true by lra.
    rewrite Rabs_lt_false by lra. cbn [andb].
    rewrite Rltb_true by lra. reflexivity. }
  assert (E1 : border_intersection (width / 2) (height / 2) (1, 0, 0) 1 = None).
  { unfold border_intersection, frame, cross, v0, v1, v2, eps, width, height.
    cbn [nth Nat.modulo Nat.add Nat.sub fst snd Nat.divmod].
    rewrite Rabs_lt_true by lra. reflexivity. }
  rewrite E0, E1.
  unfold border_intersection, frame, cross, v0, v1, v2, eps, width, height.
  cbn [nth Nat.modulo Nat.add Nat.sub fst snd Nat.divmod].
  rewrite Rabs_lt_false by lra. rewrite Rabs_lt_true by lra.
  rewrite Rabs_lt_false by lra. cbn [andb].
  rewrite Rltb_false by lra.
  match goal with
  | |- context [Rltb ?a (?x / ?d)] => replace (x / d) with 0 by (field; lra)
  end.
  match goal with
  | |- context [Rltb (?x / ?d) ?b] =>
      replace (x / d) with (- (605 / 10 / 2)) by (field; lra)
  end.
  rewrite !Rltb_true by lra. reflexivity.
Qed.

Local Close Scope R_scope.

(** ** Frame mapper *)

Lemma clamp_range (v lo hi : Z) : lo <= hi -> lo <= clamp v lo hi <= hi.
Proof. unfold clamp. lia. Qed.

Lemma led_at_range (cm : R) : 0 <= led_at cm <= n - 1.
Proof. unfold led_at. apply clamp_range. unfold n. lia. Qed.

Lemma intersect_angle_frame_range (angle : R) (i : Z) :
  intersect_angle_frame angle = Some i -> 0 <= i <= n - 1.
Proof.
  unfold intersect_angle_frame, led_of_intersection.
  destruct (get_border_intersections _ _ _) as [[s [x y]]|]; [|discriminate].
  intro H. injection H as <-. apply led_at_range.
Qed.

Lemma south_led : intersect_angle_frame (- PI / 2) = Some 26.
Proof.
  unfold intersect_angle_frame. rewrite south_axis, south_intersection.
  unfold led_of_intersection, led_at, unwind. f_equal.
  rewrite (round_nearest _ 26).
  - reflexivity.
  - unfold width. lra.
Qed.

Lemma northclockwise2math_south : northclockwise2math PI = (- PI / 2)%R.
Proof.
  unfold northclockwise2math. pose proof PI_RGT_0.
  replace (2 * PI - PI + PI / 2)%R with (- PI / 2 + 2 * PI)%R by lra.
  rewrite wrap_to_pi_period. apply wrap_to_pi_fixed. lra.
Qed.

(** ** Julian day *)

Ltac close_divs :=
  repeat match goal with
         | |- context [(?a - 14) / 12] =>
             let v := eval vm_compute in ((a - 14) / 12) in
             change ((a - 14) / 12) with v
         | |- context [(?a - 14) ÷ 12] =>
             let v := eval vm_compute in ((a - 14) ÷ 12) in
             change ((a - 14) ÷ 12) with v
         | |- context [367 * ?a / 12] =>
             let v := eval vm_compute in (367 * a / 12) in
             change (367 * a / 12) with v
         | |- context [367 * ?a ÷ 12] =>
             let v := eval vm_compute in (367 * a ÷ 12) in
             change (367 * a ÷ 12) with v
         end.

(** In every month but February the floor division of the code runs ahead
    of the truncating division of the published formula. *)
Lemma jd_floor_ahead (y m d : Z) :
  0 <= y -> 1 <= m <= 12 -> m <> 2 -> jd_truncating y m d < jd y m d.
Proof.
  intros Hy Hm Hne. unfold jd, jd_truncating.
  assert (Hc : m = 1 \/ m = 3 \/ m = 4 \/ m = 5 \/ m = 6 \/ m = 7 \/ m = 8 \/
               m = 9 \/ m = 10 \/ m = 11 \/ m = 12) by lia.
  destruct Hc as [->|[->|[->|[->|[->|[->|[->|[->|[->|[->| ->]]]]]]]]]];
    close_divs; Z.to_euclidean_division_equations; lia.
Qed.

Lemma jd_february (y d : Z) : 0 <= y -> jd y 2 d = jd_truncating y 2 d.
Proof.
  intro Hy. unfold jd, jd_truncating.
  close_divs; Z.to_euclidean_division_equations; lia.
Qed.

(** ** Solar ephemeris: range reductions and numeric enclosures *)

Local Open Scope R_scope.

Lemma unit_circle (a : R) : cos a * cos a + sin a * sin a = 1.
Proof. pose proof (sin2_cos2 a) as H. unfold Rsqr in H. lra. Qed.

(** On the unit circle [sqrt (1 + (s/c)^2)] is [1 / |c|]. *)
Lemma sqrt_tan_pos (c s : R) :
  0 < c -> c * c + s * s = 1 -> sqrt (1 + (s / c)²) = / c.
Proof.
  intros Hc H. apply sqrt_lem_1.
  - unfold Rsqr. nra.
  - left. apply Rinv_0_lt_compat. exact Hc.
  - unfold Rsqr. field_simplify; [|lra|lra].
    rewrite <- H. field. lra.
Qed.

Lemma sqrt_tan_neg (c s : R) :
  c < 0 -> c * c + s * s = 1 -> sqrt (1 + (s / c)²) = - / c.
Proof.
  intros Hc H. apply sqrt_lem_1.
  - unfold Rsqr. nra.
  - left. apply Ropp_0_gt_lt_contravar. apply Rinv_lt_0_compat. exact Hc.
  - unfold Rsqr. field_simplify; [|lra|lra].
    rewrite <- H. field. lra.
Qed.

Lemma sin_cos_atan2 (a : R) :
  sin (atan2 (sin a) (cos a)) = sin a /\ cos (atan2 (sin a) (cos a)) = cos a.
Proof.
  pose proof (unit_circle a) as Hu. unfold atan2.
  set (c := cos a) in *. set (s := sin a) in *.
  destruct (Rlt_dec 0 c) as [Hc|Hc].
  - rewrite sin_atan, cos_atan, (sqrt_tan_pos c s Hc Hu). split; field; lra.
  - destruct (Rlt_dec c 0) as [Hc'|Hc'].
    + destruct (Rle_dec 0 s) as [Hs|Hs].
      * rewrite neg_sin, neg_cos, sin_atan, cos_atan, (sqrt_tan_neg c s Hc' Hu).
        split; field; lra.
      * replace (atan (s / c) - PI) with (- (PI - atan (s / c))) by lra.
        rewrite sin_neg, cos_neg, sin_PI_x, Rtrigo_facts.cos_pi_minus.
        rewrite sin_atan, cos_atan, (sqrt_tan_neg c s Hc' Hu).
        split; field; lra.
    + assert (Hz : c = 0) by lra. rewrite Hz in Hu.
      destruct (Rlt_dec 0 s) as [Hs|Hs].
      * rewrite sin_PI2, cos_PI2. split; nra.
      * destruct (Rlt_dec s 0) as [Hs'|Hs'].
        -- rewrite sin_neg, cos_neg, sin_PI2, cos_PI2. split; nra.
        -- exfalso. nra.
Qed.

Lemma sin_wrap_to_0_2pi (a : R) : sin (wrap_to_0_2pi a) = sin a.
Proof.
  unfold wrap_to_0_2pi. rewrite neg_sin.
  rewrite (proj1 (sin_cos_atan2 (a - PI))).
  replace (a - PI) with (- (PI - a)) by lra.
  rewrite sin_neg, sin_PI_x. lra.
Qed.

Lemma cos_wrap_to_0_2pi (a : R) : cos (wrap_to_0_2pi a) = cos a.
Proof.
  unfold wrap_to_0_2pi. rewrite neg_cos.
  rewrite (proj2 (sin_cos_atan2 (a - PI))).
  replace (a - PI) with (- (PI - a)) by lra.
  rewrite cos_neg, Rtrigo_facts.cos_pi_minus. lra.
Qed.

Lemma tan_wrap_to_0_2pi (a : R) : tan (wrap_to_0_2pi a) = tan a.
Proof. unfold tan. rewrite sin_wrap_to_0_2pi, cos_wrap_to_0_2pi. reflexivity. Qed.

Lemma sin_wrap_plus (a b c : R) :
  sin (wrap_to_0_2pi a + b + c) = sin (a + b + c).
Proof.
  rewrite !Rplus_assoc, !sin_plus, sin_wrap_to_0_2pi, cos_wrap_to_0_2pi.
  reflexivity.
Qed.

Lemma cos_wrap_plus (a b c : R) :
  cos (wrap_to_0_2pi a + b + c) = cos (a + b + c).
Proof.
  rewrite !Rplus_assoc, !cos_plus, sin_wrap_to_0_2pi, cos_wrap_to_0_2pi.
  reflexivity.
Qed.

Lemma sin_minus_wrap (t a : R) : sin (t - wrap_to_0_2pi a) = sin (t - a).
Proof. rewrite !sin_minus, sin_wrap_to_0_2pi, cos_wrap_to_0_2pi. reflexivity. Qed.

Lemma cos_minus_wrap (t a : R) : cos (t - wrap_to_0_2pi a) = cos (t - a).
Proof. rewrite !cos_minus, sin_wrap_to_0_2pi, cos_wrap_to_0_2pi. reflexivity. Qed.

Lemma sin_double_wrap (a : R) : sin (2 * wrap_to_0_2pi a) = sin (2 * a).
Proof. rewrite !sin_2a, sin_wrap_to_0_2pi, cos_wrap_to_0_2pi. reflexivity. Qed.

Lemma tan_asin (x : R) : -1 <= x <= 1 -> tan (asin x) = x / sqrt (1 - x²).
Proof. intro H. unfold tan. rewrite sin_asin, cos_asin by exact H. reflexivity. Qed.

Lemma sin_product_bound (a b : R) : -1 <= sin a * sin b <= 1.
Proof.
  pose proof (SIN_bound a). pose proof (SIN_bound b). split; nra.
Qed.

(** The position without the range reductions that do not matter. *)
Lemma calc_solar_position_unwrapped (coords : R * R) (dt : date_time) :
  let rlat := radians (fst coords) in
  let rlong := radians (snd coords) in
  let d := IZR (jd (year dt) (month dt) (day dt) - 2451545) in
  let L := radians (280460 / 1000) + radians (9856474 / 10000000) * d in
  let g := radians (357528 / 1000) + radians (9856003 / 10000000) * d in
  let A := L + radians (1915 / 1000) * sin g + radians (1997 / 100000) * sin (2 * g) in
  let e := radians (23439 / 1000) - radians (4 / 10000000) * d in
  let x := cos e * (sin A / cos A) in
  let alpha := if Rltb 0 (cos A) then atan x else atan x + PI in
  let sd := sin e * sin A in
  let theta := Rmod (6697376 / 1000000 + 240005134 / 100000 * (d / 36525)
                     + 1002738 / 1000000 * (IZR (hour dt) + IZR (minute dt) / 60)) 24
               * radians 15 + rlong in
  let tau := theta - alpha in
  calc_solar_position coords dt
  = (wrap_to_pi (atan2 (sin tau)
                   (cos tau * sin rlat - sd / sqrt (1 - sd²) * cos rlat) + PI),
     asin (sqrt (1 - sd²) * cos tau * cos rlat + sd * sin rlat)).
Proof.
  intros. unfold calc_solar_position. cbv zeta.
  rewrite !sin_minus_wrap, !cos_minus_wrap.
  rewrite !tan_wrap_to_0_2pi, !sin_wrap_to_0_2pi, !cos_wrap_to_0_2pi.
  rewrite !tan_asin, !sin_asin, !cos_asin by apply sin_product_bound.
  unfold tan.
  rewrite !sin_wrap_plus, !cos_wrap_plus.
  rewrite ?sin_wrap_to_0_2pi, ?sin_double_wrap.
  reflexivity.
Qed.

(** ** Numeric enclosures *)

Lemma PI_enclosure : 314159265 / 100000000 < PI < 314159266 / 100000000.
Proof.
  pose proof (PI_2_3_7_ineq 4) as [Hlo Hhi].
  unfold PI_2_3_7_tg, tg_alt, Ratan_seq in Hlo, Hhi.
  cbn [sum_f_R0 Nat.mul Nat.add pow] in Hlo, Hhi.
  simpl INR in Hlo, Hhi.
  split; lra.
Qed.

Lemma INR_fact_1 : INR (fact 1) = 1. Proof. reflexivity. Qed.
Lemma INR_fact_0 : INR (fact 0) = 1. Proof. reflexivity. Qed.

Ltac fact_value k v :=
  replace (INR (fact k)) with v
    by (rewrite INR_IZR_INZ; apply f_equal; vm_compute; reflexivity).

Ltac fact_values :=
  rewrite ?INR_fact_0, ?INR_fact_1;
  fact_value 2%nat 2; fact_value 3%nat 6; fact_value 4%nat 24;
  fact_value 5%nat 120; fact_value 6%nat 720; fact_value 7%nat 5040;
  fact_value 8%nat 40320; fact_value 9%nat 362880.

Lemma sin_lb_eq (a : R) : sin_lb a = sin_low a.
Proof.
  unfold sin_lb, sin_approx, sin_term, sin_low.
  cbn [sum_f_R0 Nat.mul Nat.add]. fact_values. field.
Qed.

Lemma sin_ub_eq (a : R) : sin_ub a = sin_high a.
Proof.
  unfold sin_ub, sin_approx, sin_term, sin_high, sin_low.
  cbn [sum_f_R0 Nat.mul Nat.add]. fact_values. field.
Qed.

Lemma cos_lb_eq (a : R) : cos_lb a = cos_low a.
Proof.
  unfold cos_lb, cos_approx, cos_term, cos_low.
  cbn [sum_f_R0 Nat.mul Nat.add]. fact_values. field.
Qed.

Lemma cos_ub_eq (a : R) : cos_ub a = cos_high a.
Proof.
  unfold cos_ub, cos_approx, cos_term, cos_high, cos_low.
  cbn [sum_f_R0 Nat.mul Nat.add]. fact_values. field.
Qed.

(** Sine and cosine of an angle enclosed in [lo, hi] within the first
    quadrant, by monotonicity and the alternating Taylor sums. *)
Lemma sin_enclosure (lo x hi : R) :
  0 <= lo -> lo <= x -> x <= hi -> hi <= PI / 2 ->
  sin_low lo <= sin x <= sin_high hi.
Proof.
  intros H0 H1 H2 H3. pose proof PI_RGT_0 as Hpi. split.
  - apply Rle_trans with (sin lo).
    + rewrite <- sin_lb_eq. apply SIN; lra.
    + apply sin_incr_1; lra.
  - apply Rle_trans with (sin hi).
    + apply sin_incr_1; lra.
    + rewrite <- sin_ub_eq. apply SIN; lra.
Qed.

Lemma cos_enclosure (lo x hi : R) :
  0 <= lo -> lo <= x -> x <= hi -> hi <= PI / 2 ->
  cos_low hi <= cos x <= cos_high lo.
Proof.
  intros H0 H1 H2 H3. pose proof PI_RGT_0 as Hpi. split.
  - apply Rle_trans with (cos hi).
    + rewrite <- cos_lb_eq. apply COS; lra.
    + apply cos_decr_1; lra.
  - apply Rle_trans with (cos lo).
    + apply cos_decr_1; lra.
    + rewrite <- cos_ub_eq. apply COS; lra.
Qed.

(** *** Paris at noon UTC, 27 January 2019 *)

(** Sine and cosine at a fraction [q] of a half turn, [0 <= q <= 0.49]. *)
Lemma at_fraction (q : R) :
  0 <= q <= 49 / 100 ->
  sin_low (q * (314159265 / 100000000)) <= sin (q * PI)
    <= sin_high (q * (314159266 / 100000000)) /\
  cos_low (q * (314159266 / 100000000)) <= cos (q * PI)
    <= cos_high (q * (314159265 / 100000000)).
Proof.
  intros [H0 H1]. pose proof PI_enclosure as [Hl Hh].
  split; [apply sin_enclosure|apply cos_enclosure]; nra.
Qed.

Lemma noon_days_value : noon_days = 6968.
Proof. unfold noon_days. apply f_equal. reflexivity. Qed.

Lemma sin_turns (x : R) (k : nat) : sin (x + 2 * INR k * PI) = sin x.
Proof. apply sin_period. Qed.

(** The mean anomaly is 25.19 degrees past twenty turns. *)
Lemma noon_g_sin_cos :
  4256354 / 10000000 <= sin noon_g <= 4256355 / 10000000 /\
  9048947 / 10000000 <= cos noon_g <= 9048948 / 10000000.
Proof.
  assert (E : noon_g = 31488613 / 225000000 * PI + 2 * INR 20 * PI).
  { unfold noon_g, radians. rewrite noon_days_value. simpl INR. field. }
  rewrite E, sin_period, cos_period.
  destruct (at_fraction (31488613 / 225000000)) as [[S1 S2] [C1 C2]]; [lra|].
  unfold sin_high, cos_high, sin_low, cos_low in *.
  repeat split; lra.
Qed.

(** The obliquity of the ecliptic, 23.436 degrees. *)
Lemma noon_e_sin_cos :
  3977278 / 10000000 <= sin noon_e <= 3977279 / 10000000 /\
  9175034 / 10000000 <= cos noon_e <= 9175035 / 10000000.
Proof.
  assert (E : noon_e = 14647633 / 112500000 * PI).
  { unfold noon_e, radians. rewrite noon_days_value. field. }
  rewrite E.
  destruct (at_fraction (14647633 / 112500000)) as [[S1 S2] [C1 C2]]; [lra|].
  unfold sin_high, cos_high, sin_low, cos_low in *.
  repeat split; lra.
Qed.

(** The latitude, 48.86 degrees. *)
Lemma noon_lat_sin_cos :
  7531097 / 10000000 <= sin noon_lat <= 7531105 / 10000000 /\
  6578872 / 10000000 <= cos noon_lat <= 6578942 / 10000000.
Proof.
  assert (E : noon_lat = 6107567 / 22500000 * PI).
  { unfold noon_lat, radians, paris_coords. cbn [fst]. field. }
  rewrite E.
  destruct (at_fraction (6107567 / 22500000)) as [[S1 S2] [C1 C2]]; [lra|].
  unfold sin_high, cos_high, sin_low, cos_low in *.
  repeat split; lra.
Qed.

Lemma Rmod_value (x m : R) (k : Z) :
  0 < m -> IZR k * m <= x < (IZR k + 1) * m -> Rmod x m = x - m * IZR k.
Proof.
  intros Hm [H1 H2]. unfold Rmod.
  replace (Int_part (x / m)) with k; [reflexivity|].
  apply Int_part_spec. split.
  - apply Rmult_lt_reg_r with m; [exact Hm|]. unfold Rdiv.
    rewrite Rmult_minus_distr_r, Rmult_assoc, Rinv_l by lra. lra.
  - apply Rmult_le_reg_r with m; [exact Hm|]. unfold Rdiv.
    rewrite Rmult_assoc, Rinv_l by lra. lra.
Qed.

(** The local sidereal angle, 311.28 degrees: 48.72 degrees short of a turn. *)
Lemma noon_theta_sin_cos :
  7515332 / 10000000 <= - sin noon_theta <= 7515340 / 10000000 /\
  6596877 / 10000000 <= cos noon_theta <= 6596946 / 10000000.
Proof.
  assert (E : noon_theta = - (23728308397 / 87660000000 * PI) + 2 * INR 1 * PI).
  { unfold noon_theta, radians, paris_coords. cbn [snd].
    rewrite noon_days_value, (Rmod_value _ 24 19) by lra.
    simpl INR. field. }
  rewrite E, sin_period, cos_period, sin_neg, cos_neg, Ropp_involutive.
  destruct (at_fraction (23728308397 / 87660000000)) as [[S1 S2] [C1 C2]]; [lra|].
  unfold sin_high, cos_high, sin_low, cos_low in *.
  repeat split; lra.
Qed.

Lemma mul_enclosure (a b al ah bl bh : R) :
  al <= a <= ah -> bl <= b <= bh -> 0 <= al -> 0 <= bl ->
  al * bl <= a * b <= ah * bh.
Proof.
  intros [Ha1 Ha2] [Hb1 Hb2] Ha Hb. split; apply Rmult_le_compat; lra.
Qed.

Lemma div_enclosure (a b al ah bl bh : R) :
  al <= a <= ah -> bl <= b <= bh -> 0 <= al -> 0 < bl ->
  al / bh <= a / b <= ah / bl.
Proof.
  intros [Ha1 Ha2] [Hb1 Hb2] Ha Hb. unfold Rdiv.
  assert (/ bh <= / b) by (apply Rinv_le_contravar; lra).
  assert (/ b <= / bl) by (apply Rinv_le_contravar; lra).
  assert (0 < / bh) by (apply Rinv_0_lt_compat; lra).
  split; apply Rmult_le_compat; lra.
Qed.

(** The ecliptic longitude, 309.28 degrees: 50.72 degrees short of twenty
    turns. *)
Lemma noon_A_sin_cos :
  7740430 / 10000000 <= - sin noon_A <= 7740443 / 10000000 /\
  6331223 / 10000000 <= cos noon_A <= 6331319 / 10000000.
Proof.
  destruct noon_g_sin_cos as [[S1 S2] [C1 C2]].
  set (r := 32218073 / 112500000
            - (1915 / 1000 * sin noon_g + 1997 / 100000 * sin (2 * noon_g)) / 180).
  assert (E : noon_A = - (r * PI) + 2 * INR 20 * PI).
  { unfold noon_A, noon_L, radians, r. rewrite noon_days_value. simpl INR. field. }
  assert (Hr : 2817691 / 10000000 <= r <= 2817692 / 10000000).
  { unfold r. rewrite sin_2a.
    set (s := sin noon_g) in *. set (c := cos noon_g) in *.
    pose proof (mul_enclosure s c _ _ _ _ (conj S1 S2) (conj C1 C2)
                  ltac:(lra) ltac:(lra)) as [M1 M2].
    split; lra. }
  rewrite E, sin_period, cos_period, sin_neg, cos_neg, Ropp_involutive.
  clearbody r. clear E S1 S2 C1 C2.
  pose proof PI_enclosure as [Hl Hh].
  pose proof (mul_enclosure r PI _ _ _ _ Hr
                (conj (Rlt_le _ _ Hl) (Rlt_le _ _ Hh)) ltac:(lra) ltac:(lra))
    as [P1 P2].
  assert (Q0 : 0 <= 2817691 / 10000000 * (314159265 / 100000000)) by lra.
  assert (Q1 : 2817692 / 10000000 * (314159266 / 100000000) <= PI / 2) by lra.
  pose proof (sin_enclosure _ _ _ Q0 P1 P2 Q1) as [Sa Sb].
  pose proof (cos_enclosure _ _ _ Q0 P1 P2 Q1) as [Ca Cb].
  unfold sin_high, cos_high, sin_low, cos_low in *.
  repeat split; lra.
Qed.

Lemma sqrt_enclosure (x lo hi : R) :
  0 <= lo -> 0 <= hi -> lo * lo <= x <= hi * hi -> lo <= sqrt x <= hi.
Proof.
  intros Hlo Hhi [H1 H2]. split.
  - rewrite <- (sqrt_square lo Hlo). apply sqrt_le_1_alt. exact H1.
  - rewrite <- (sqrt_square hi Hhi). apply sqrt_le_1_alt. exact H2.
Qed.

(** The tangent of the right ascension. *)
Lemma noon_x_bounds : 11217 / 10000 <= - noon_x <= 11218 / 10000.
Proof.
  destruct noon_A_sin_cos as [SA CA]. destruct noon_e_sin_cos as [_ CE].
  assert (E : - noon_x = cos noon_e * (- sin noon_A / cos noon_A)).
  { unfold noon_x. field. lra. }
  rewrite E.
  pose proof (div_enclosure _ _ _ _ _ _ SA CA ltac:(lra) ltac:(lra)) as T.
  pose proof (mul_enclosure _ _ _ _ _ _ CE T ltac:(lra) ltac:(lra)) as [X1 X2].
  split; lra.
Qed.

Lemma noon_alpha_value : noon_alpha = atan noon_x.
Proof.
  unfold noon_alpha. destruct noon_A_sin_cos as [_ [CA _]].
  rewrite Rltb_true by lra. reflexivity.
Qed.

Lemma noon_hypotenuse : 15027 / 10000 <= sqrt (1 + noon_x²) <= 15029 / 10000.
Proof.
  destruct noon_x_bounds as [X1 X2]. apply sqrt_enclosure; try lra.
  unfold Rsqr. split; nra.
Qed.

(** The hour angle: the sun is 0.44 degrees east of the meridian. *)
Lemma noon_tau_sin_cos :
  - (77 / 10000) <= sin noon_tau <= - (76 / 10000) /\
  9998 / 10000 <= cos noon_tau <= 1.
Proof.
  destruct noon_x_bounds as [X1 X2]. destruct noon_hypotenuse as [R1 R2].
  destruct noon_theta_sin_cos as [[S1 S2] [C1 C2]].
  unfold noon_tau. rewrite noon_alpha_value.
  assert (Es : sin (noon_theta - atan noon_x)
               = (cos noon_theta * - noon_x - - sin noon_theta) / sqrt (1 + noon_x²)).
  { rewrite sin_minus, sin_atan, cos_atan. field. lra. }
  assert (Ec : cos (noon_theta - atan noon_x)
               = (cos noon_theta + - sin noon_theta * - noon_x) / sqrt (1 + noon_x²)).
  { rewrite cos_minus, sin_atan, cos_atan. field. lra. }
  set (X := - noon_x) in *. set (s := - sin noon_theta) in *.
  set (c := cos noon_theta) in *. set (h := sqrt (1 + noon_x²)) in *.
  pose proof (mul_enclosure c X _ _ _ _ (conj C1 C2) (conj X1 X2)
                ltac:(lra) ltac:(lra)) as [M1 M2].
  pose proof (mul_enclosure s X _ _ _ _ (conj S1 S2) (conj X1 X2)
                ltac:(lra) ltac:(lra)) as [M3 M4].
  assert (Hh : 0 < / h) by (apply Rinv_0_lt_compat; lra).
  assert (Hh1 : / (15029 / 10000) <= / h) by (apply Rinv_le_contravar; lra).
  assert (Hh2 : / h <= / (15027 / 10000)) by (apply Rinv_le_contravar; lra).
  split.
  - rewrite Es. unfold Rdiv. set (k := / h) in *.
    assert (N : - (11563 / 1000000) <= c * X - s <= - (11487 / 1000000))
      by (split; lra).
    split; nra.
  - split; [|apply COS_bound].
    pose proof (COS_bound (noon_theta - atan noon_x)) as [_ Hc].
    rewrite Ec. unfold Rdiv. set (k := / h) in *.
    assert (N : 150268 / 100000 <= c + s * X) by lra.
    nra.
Qed.

(** The sine of the declination, -17.93 degrees, and its cosine. *)
Lemma noon_sd_bounds : - (3079 / 10000) <= noon_sd <= - (3078 / 10000).
Proof.
  destruct noon_A_sin_cos as [SA _]. destruct noon_e_sin_cos as [SE _].
  assert (E : noon_sd = - (sin noon_e * - sin noon_A)) by (unfold noon_sd; ring).
  rewrite E.
  pose proof (mul_enclosure _ _ _ _ _ _ SE SA ltac:(lra) ltac:(lra)) as [M1 M2].
  split; lra.
Qed.

Lemma noon_cos_delta : 9514 / 10000 <= sqrt (1 - noon_sd²) <= 9515 / 10000.
Proof.
  destruct noon_sd_bounds as [D1 D2]. apply sqrt_enclosure; try lra.
  unfold Rsqr. split; nra.
Qed.

Lemma asin_pos (x : R) : 0 < x -> 0 < asin x.
Proof.
  intro Hx. pose proof PI_RGT_0 as Hpi. unfold asin.
  destruct (Rle_dec x (-1)) as [H|H]; [lra|].
  destruct (Rle_dec 1 x) as [H1|H1]; [lra|].
  rewrite <- atan_0. apply atan_increasing.
  assert (0 < sqrt (1 - x²)) by (apply sqrt_lt_R0; unfold Rsqr; nra).
  apply Rdiv_lt_0_compat; assumption.
Qed.

Lemma atan2_right (y x : R) : 0 < x -> atan2 y x = atan (y / x).
Proof. intro H. unfold atan2. destruct (Rlt_dec 0 x); [reflexivity|contradiction]. Qed.

(** One degree has a tangent above 0.0174. *)
Lemma tan_one_degree : 174 / 10000 < tan (PI / 180).
Proof.
  pose proof PI_enclosure as [Hl Hh].
  pose proof (sin_enclosure (314159265 / 100000000 / 180) (PI / 180)
                (314159266 / 100000000 / 180) ltac:(lra) ltac:(lra) ltac:(lra)
                ltac:(lra)) as [S1 _].
  unfold sin_low in S1.
  assert (Hs : 1745 / 100000 <= sin (PI / 180)) by lra.
  assert (Hc : 0 < cos (PI / 180)) by (apply cos_gt_0; lra).
  pose proof (COS_bound (PI / 180)) as [_ Hc1].
  unfold tan. apply Rlt_le_trans with (sin (PI / 180)); [lra|].
  apply Rmult_le_reg_r with (cos (PI / 180)); [exact Hc|].
  unfold Rdiv. rewrite Rmult_assoc, Rinv_l by lra. nra.
Qed.

Lemma noon_position :
  calc_solar_position paris_coords noon_2019_01_27
  = (wrap_to_pi
       (atan2 (sin noon_tau)
          (cos noon_tau * sin noon_lat
           - noon_sd / sqrt (1 - noon_sd²) * cos noon_lat) + PI),
     asin (sqrt (1 - noon_sd²) * cos noon_tau * cos noon_lat
           + noon_sd * sin noon_lat)).
Proof. exact (calc_solar_position_unwrapped paris_coords noon_2019_01_27). Qed.

Local Close Scope R_scope.

(** ** Every direction meets a side *)

Local Open Scope R_scope.

Lemma div_between_neg (a b lo hi : R) :
  b < 0 -> hi * b < a < lo * b -> lo < a / b < hi.
Proof.
  intros Hb [H1 H2].
  assert (Hi : / b < 0) by (apply Rinv_lt_0_compat; exact Hb).
  assert (E : a / b * b = a) by (field; lra).
  set (q := a / b) in *. split; nra.
Qed.

Lemma axis_of_angle (angle : R) :
  cross (0, 0, 1) (cos angle, sin angle, 1) = (- sin angle, cos angle, 0).
Proof. unfold cross, v0, v1, v2. cbn [fst snd]. f_equal; [f_equal|]; ring. Qed.

Ltac edge_test :=
  unfold border_intersection, frame, cross, v0, v1, v2, eps, width, height;
  cbn [nth Nat.modulo Nat.add Nat.sub fst snd Nat.divmod].

Ltac pass_equal_test :=
  match goal with
  | |- context [Rltb (Rabs ?a) ?e && Rltb (Rabs ?b) ?e'] =>
      replace (Rltb (Rabs a) e && Rltb (Rabs b) e') with false
        by (symmetry; apply andb_false_iff;
            first [left; apply Rabs_lt_false; lra | right; apply Rabs_lt_false; lra])
  end.

Ltac pass_bounds_test :=
  match goal with
  | |- context [Rltb ?lo (?a / ?b) && Rltb (?a / ?b) ?hi
                && Rltb ?lo' (?a' / ?b) && Rltb (?a' / ?b) ?hi'] =>
      let X1 := fresh in let X2 := fresh in let Y1 := fresh in let Y2 := fresh in
      destruct (div_between_neg a b lo hi ltac:(lra) ltac:(lra)) as [X1 X2];
      destruct (div_between_neg a' b lo' hi' ltac:(lra) ltac:(lra)) as [Y1 Y2];
      rewrite !Rltb_true by assumption
  end.

Ltac accept_edge :=
  edge_test;
  rewrite Rabs_lt_false by lra;
  pass_equal_test;
  rewrite Rltb_false by lra;
  pass_bounds_test;
  discriminate.

(** The ray meets the north side when it points upward and not too flat. *)
Lemma north_accepts (c s : R) :
  1 / 1000 <= 895 / 10 * s ->
  - ((895 / 20 + 1 / 1000) * s) < 605 / 20 * c < (895 / 20 + 1 / 1000) * s ->
  border_intersection (width / 2) (height / 2) (- s, c, 0) 0 <> None.
Proof. intros Hs Hc. accept_edge. Qed.

Lemma east_accepts (c s : R) :
  1 / 1000 <= 605 / 10 * c ->
  - ((605 / 20 + 1 / 1000) * c) < 895 / 20 * s < (605 / 20 + 1 / 1000) * c ->
  border_intersection (width / 2) (height / 2) (- s, c, 0) 1 <> None.
Proof. intros Hs Hc. accept_edge. Qed.

Lemma south_accepts (c s : R) :
  895 / 10 * s <= - (1 / 1000) ->
  (895 / 20 + 1 / 1000) * s < 605 / 20 * c < - ((895 / 20 + 1 / 1000) * s) ->
  border_intersection (width / 2) (height / 2) (- s, c, 0) 2 <> None.
Proof. intros Hs Hc. accept_edge. Qed.

Lemma west_accepts (c s : R) :
  605 / 10 * c <= - (1 / 1000) ->
  (605 / 20 + 1 / 1000) * c < 895 / 20 * s < - ((605 / 20 + 1 / 1000) * c) ->
  border_intersection (width / 2) (height / 2) (- s, c, 0) 3 <> None.
Proof. intros Hs Hc. accept_edge. Qed.

Lemma first_intersection_some (w2 h2 : R) (axis : vec3) (edges : list nat) (i : nat) :
  In i edges -> border_intersection w2 h2 axis i <> None ->
  first_intersection w2 h2 axis edges <> None.
Proof.
  induction edges as [|j edges IH]; intros Hi Hne; [contradiction|].
  cbn [first_intersection].
  destruct (border_intersection w2 h2 axis j) eqn:E; [discriminate|].
  destruct Hi as [->|Hi]; [contradiction|]. apply IH; assumption.
Qed.

(** From the center of the frame every direction meets a side. *)
Lemma some_edge_accepts (c s : R) :
  c * c + s * s = 1 ->
  exists i, In i (seq 0 4) /\
    border_intersection (width / 2) (height / 2) (- s, c, 0) i <> None.
Proof.
  intro Hu.
  destruct (Rle_dec (1 / 1000) (895 / 10 * s)) as [Hn|Hn].
  - (* pointing up *)
    destruct (Rlt_dec (605 / 20 * c) ((895 / 20 + 1 / 1000) * s)) as [H1|H1].
    + destruct (Rlt_dec (- ((895 / 20 + 1 / 1000) * s)) (605 / 20 * c)) as [H2|H2].
      * exists 0%nat. split; [simpl; auto|]. apply north_accepts; lra.
      * exists 3%nat. split; [simpl; auto|]. apply west_accepts; nra.
    + exists 1%nat. split; [simpl; auto|]. apply east_accepts; nra.
  - destruct (Rle_dec (895 / 10 * s) (- (1 / 1000))) as [Hs|Hs].
    + (* pointing down *)
      destruct (Rlt_dec (605 / 20 * c) (- ((895 / 20 + 1 / 1000) * s))) as [H1|H1].
      * destruct (Rlt_dec ((895 / 20 + 1 / 1000) * s) (605 / 20 * c)) as [H2|H2].
        -- exists 2%nat. split; [simpl; auto|]. apply south_accepts; lra.
        -- exists 3%nat. split; [simpl; auto|]. apply west_accepts; nra.
      * exists 1%nat. split; [simpl; auto|]. apply east_accepts; nra.
    + (* nearly horizontal *)
      destruct (Rlt_dec 0 c) as [Hc|Hc].
      * exists 1%nat. split; [simpl; auto|]. apply east_accepts; nra.
      * exists 3%nat. split; [simpl; auto|]. apply west_accepts; nra.
Qed.

Lemma intersect_angle_frame_total (angle : R) :
  exists i, intersect_angle_frame angle = Some i /\ (0 <= i <= n - 1)%Z.
Proof.
  destruct (some_edge_accepts (cos angle) (sin angle) (unit_circle angle))
    as [i [Hi Hne]].
  pose proof (first_intersection_some _ _ _ _ _ Hi Hne) as Hf.
  destruct (intersect_angle_frame angle) as [j|] eqn:E.
  - exists j. split; [reflexivity|]. apply (intersect_angle_frame_range _ _ E).
  - exfalso. unfold intersect_angle_frame in E. rewrite axis_of_angle in E.
    unfold get_border_intersections in E.
    destruct (first_intersection _ _ _ _); [|contradiction].
    destruct p as [sd [x y]]. discriminate.
Qed.

Local Close Scope R_scope.

(** [clock] never meets an absent index with the frame as shipped: it runs
    to completion at every time of day. *)
Lemma clock_runs (h m s : Z) (st : state) : exists st', clock h m s st = OK st'.
Proof.
  unfold clock. cbn [map].
  destruct (intersect_angle_frame_total
              (northclockwise2math
                 ((IZR ((h + 1) mod 12) + IZR m / 60) / 12 * 2 * PI)%R))
    as [i0 [E0 _]].
  destruct (intersect_angle_frame_total
              (northclockwise2math (IZR m / 60 * 2 * PI)%R)) as [i1 [E1 _]].
  destruct (intersect_angle_frame_total
              (northclockwise2math (IZR s / 60 * 2 * PI)%R)) as [i2 [E2 _]].
  rewrite E0, E1, E2. unfold clock_hands. cbn [map_m times4 bind].
  eexists. reflexivity.
Qed.

(** * The claims *)

(** ** C7: the ring and its four arcs *)

Lemma in_arc_spec (s : side) (i : Z) :
  in_arc s i = true <-> arc_start (cardinals s) <= i < arc_end (cardinals s).
Proof. unfold in_arc. rewrite andb_true_iff, Z.leb_le, Z.ltb_lt. reflexivity. Qed.

(** C7. The intercardinal indices are [0], [cols], [cols + rows] and
    [2 * cols + rows]; with [n = 2 * cols + 2 * rows] they cut the ring into
    the four arcs south, west, north, east, each starting where the previous
    one ends, of [cols] pixels on the horizontal sides and [rows] on the
    vertical ones; the lengths add up to [n] and every index of the ring
    lies on exactly one arc. *)
Theorem intercardinals_partition_ring :
  (south_east = 0 /\ south_west = cols /\ north_west = cols + rows /\
   north_east = 2 * cols + rows /\ n = 2 * cols + 2 * rows) /\
  (arc_start (cardinals south) = 0 /\
   arc_end (cardinals south) = arc_start (cardinals west) /\
   arc_end (cardinals west) = arc_start (cardinals north) /\
   arc_end (cardinals north) = arc_start (cardinals east) /\
   arc_end (cardinals east) = n) /\
  (forall s, arc_end (cardinals s) - arc_start (cardinals s) = pixel_count (cardinals s) /\
             pixel_count (cardinals s)
             = match s with north | south => cols | east | west => rows end) /\
  pixel_count (cardinals south) + pixel_count (cardinals west)
  + pixel_count (cardinals north) + pixel_count (cardinals east) = n /\
  (forall i, 0 <= i < n ->
     exists s, in_arc s i = true /\ forall s', in_arc s' i = true -> s' = s).
Proof.
  split; [repeat split|]. split; [repeat split|].
  split; [intros []; split; reflexivity|]. split; [reflexivity|].
  intros i Hi. unfold n in Hi.
  assert (Hc : i < 54 \/ 54 <= i < 90 \/ 90 <= i < 144 \/ 144 <= i) by lia.
  destruct Hc as [H|[H|[H|H]]];
    [exists south|exists west|exists north|exists east];
    (split; [apply in_arc_spec; cbv [cardinals arc_start arc_end south_east
               south_west north_west north_east cols rows n]; lia|]);
    intros [] Hs; apply in_arc_spec in Hs; try reflexivity;
    exfalso; revert Hs;
    cbv [cardinals arc_start arc_end south_east south_west north_west north_east
         cols rows n]; lia.
Qed.

(** ** C8: the Julian day *)

(** C8. At 2000-01-01 the expression of [calc_solar_position] yields
    2451547, two days past the Julian day 2451545 of that date, which the
    same formula yields under truncating division; [n = jd - 2451545] is
    then [2] on the day it should be [0]. *)
Theorem jd_epoch_is_two_days_late :
  jd 2000 1 1 = 2451547 /\ jd_truncating 2000 1 1 = 2451545 /\
  jd 2000 1 1 - 2451545 = 2.
Proof. repeat split. Qed.

(** ** C4 and C5: the animator reaches its target *)

(** C4. [apply] with [steps = 1], on buffers of [n] pixels of bytes and
    offsets of whole pixels, completes; afterwards every affected byte of
    [leds_0] equals the byte of [leds_1] at the same offset, [leds_1] is
    untouched, the one frame emitted is that final [leds_0], and when every
    byte is affected [leds_0] is [leds_1]. *)
Theorem apply_single_step_exact (pixels : option (list Z)) (st : state) :
  well_formed st -> valid_pixels pixels ->
  exists st',
    apply 1 pixels st = OK st' /\
    leds_1 st' = leds_1 st /\
    wire st' = wire st ++ [leds_0 st'] /\
    (forall k, In k (affected pixels) ->
       byte_at (leds_0 st') k = byte_at (leds_1 st) k) /\
    (truthy pixels = false -> leds_0 st' = leds_1 st).
Proof.
  intros Hwf Hv.
  destruct (apply_converges 1 pixels st ltac:(lia) Hwf Hv)
    as [st' (E & Hwf' & H1 & [frames [Hw Hlen]] & _ & Hin)].
  exists st'. split; [exact E|]. split; [exact H1|]. split; [|split].
  - destruct frames; [exact Hw|simpl in Hlen; lia].
  - exact Hin.
  - intro Hall.
    destruct Hwf' as [[L0 _] _]. destruct Hwf as [_ [L1 _]].
    apply (nth_ext _ _ 0 0); [lia|].
    intros k Hk.
    assert (Hk' : In (Z.of_nat k) (affected pixels)).
    { unfold affected. rewrite Hall. apply in_range. lia. }
    specialize (Hin _ Hk'). unfold byte_at in Hin.
    rewrite Nat2Z.id in Hin. exact Hin.
Qed.

(** C5. For every [steps >= 1], [apply] completes and leaves in every
    affected byte of [leds_0] the byte of [leds_1]: the last iteration runs
    at fraction [steps / steps = 1], where the truncated interpolation is
    the target itself, whatever the earlier truncating steps left. *)
Theorem apply_reaches_target (steps : Z) (pixels : option (list Z)) (st : state) :
  1 <= steps -> well_formed st -> valid_pixels pixels ->
  exists st',
    apply steps pixels st = OK st' /\
    leds_1 st' = leds_1 st /\
    (forall k, In k (affected pixels) ->
       byte_at (leds_0 st') k = byte_at (leds_1 st) k) /\
    (forall j, 0 <= j -> ~ In j (affected pixels) ->
       byte_at (leds_0 st') j = byte_at (leds_0 st) j).
Proof.
  intros Hs Hwf Hv.
  destruct (apply_converges steps pixels st Hs Hwf Hv)
    as [st' (E & _ & H1 & _ & Hout & Hin)].
  exists st'. auto.
Qed.

Lemma apply_single_step_exact_witness :
  exists st',
    apply 1 (Some [0; 4]) fading_state = OK st' /\
    leds_1 st' = leds_1 fading_state /\
    wire st' = wire fading_state ++ [leds_0 st'] /\
    (forall k, In k (affected (Some [0; 4])) ->
       byte_at (leds_0 st') k = byte_at (leds_1 fading_state) k) /\
    (truthy (Some [0; 4]) = false -> leds_0 st' = leds_1 fading_state).
Proof.
  apply (apply_single_step_exact (Some [0; 4]) fading_state).
  - split; split; reflexivity.
  - intros j [<-|[<-|[]]]; unfold n; lia.
Defined.

Lemma apply_reaches_target_witness :
  exists st',
    apply 10 None fading_state = OK st' /\
    leds_1 st' = leds_1 fading_state /\
    (forall k, In k (affected None) ->
       byte_at (leds_0 st') k = byte_at (leds_1 fading_state) k) /\
    (forall j, 0 <= j -> ~ In j (affected None) ->
       byte_at (leds_0 st') j = byte_at (leds_0 fading_state) j).
Proof.
  apply (apply_reaches_target 10 None fading_state).
  - lia.
  - split; split; reflexivity.
  - exact I.
Defined.

(** ** C6: painting with one color *)

(** C6. For every center, every [size >= 1] (odd or even) and every color
    [c] of four bytes, [set_area] with [primary = secondary = c] completes
    and every pixel [i mod n] of its window of [size] positions holds
    exactly [c] in the painted buffer. *)
Theorem set_area_uniform_color (center size : Z) (c : color) (direct : bool)
    (st : state) :
  1 <= size -> byte_color c -> sized st ->
  exists changed st',
    set_area center size c c direct st = OK (changed, st') /\
    (center + size / 2 + size mod 2) - (center - size / 2) = size /\
    forall i, center - size / 2 <= i < center + size / 2 + size mod 2 ->
      pixel_at (painted direct st') (i mod n) = channels c.
Proof.
  intros Hsize Hc Hs.
  destruct (set_area_same_color center size c direct st Hc Hs)
    as [changed [st' (E & _ & Hpix)]].
  exists changed, st'. split; [exact E|]. split; [|exact Hpix].
  pose proof (Z.div_mod size 2 ltac:(lia)). lia.
Qed.

Lemma set_area_uniform_color_witness :
  exists changed st',
    set_area 178 6 river river false fading_state = OK (changed, st') /\
    (178 + 6 / 2 + 6 mod 2) - (178 - 6 / 2) = 6 /\
    forall i, 178 - 6 / 2 <= i < 178 + 6 / 2 + 6 mod 2 ->
      pixel_at (painted false st') (i mod n) = channels river.
Proof.
  apply (set_area_uniform_color 178 6 river false fading_state).
  - lia.
  - reflexivity.
  - split; reflexivity.
Defined.

(** ** C9: range reduction *)


(** ** C1: indices stay on the ring *)




(** ** C2: the south midpoint *)

(** C2, as amended.  Compass south is the math angle [-pi/2]; its ray meets
    the south side at its midpoint [(0, -height/2)], the perimeter distance
    there is [width / 2 = 44.75] cm, and the LED returned is 26, one short of
    the south center [cardinals south = 27]. *)
Theorem south_midpoint_led :
  northclockwise2math PI = (- PI / 2)%R /\
  get_border_intersections width height
    (cross (0, 0, 1)%R (cos (- PI / 2), sin (- PI / 2), 1%R))
  = Some (south, (0, - (height / 2))%R) /\
  unwind south 0 (- (height / 2)) = (width / 2)%R /\
  (width / 2 = 4475 / 100)%R /\
  intersect_angle_frame (- PI / 2) = Some 26 /\
  intersect_angle_frame (northclockwise2math PI) = Some 26 /\
  center_index (cardinals south) = 27 /\
  26 = center_index (cardinals south) - 1.
Proof.
  split; [exact northclockwise2math_south|].
  split; [rewrite south_axis; exact south_intersection|].
  split; [unfold unwind; lra|].
  split; [unfold width; lra|].
  split; [exact south_led|].
  split; [rewrite northclockwise2math_south; exact south_led|].
  split; reflexivity.
Qed.

(** C2, as stated, fails: the index returned for compass south is not the
    south center. *)
Lemma south_midpoint_is_not_south_center :
  intersect_angle_frame (northclockwise2math PI)
  <> Some (center_index (cardinals south)).
Proof.
  rewrite northclockwise2math_south, south_led. discriminate.
Qed.

(** ** C3: an absent index *)



(** ** C10: the scenario of the specification *)

Local Open Scope R_scope.

(** C10.  At (48.860536, 2.332237) on 2019-01-27 12:00:00 UTC the elevation
    returned is strictly positive and the azimuth returned, in radians
    clockwise from north, lies within one degree of 180 degrees, on its
    eastern side: between [PI - PI / 180] and [PI]. *)
Theorem noon_sun_is_up_in_the_south :
  0 < snd (calc_solar_position paris_coords noon_2019_01_27) /\
  PI - PI / 180 < fst (calc_solar_position paris_coords noon_2019_01_27) < PI.
Proof.
  rewrite noon_position. cbn [fst snd].
  destruct noon_tau_sin_cos as [[T1 T2] [T3 T4]].
  destruct noon_lat_sin_cos as [[L1 L2] [L3 L4]].
  destruct noon_sd_bounds as [D1 D2]. destruct noon_cos_delta as [D3 D4].
  set (st := sin noon_tau) in *. set (ct := cos noon_tau) in *.
  set (sl := sin noon_lat) in *. set (cl := cos noon_lat) in *.
  set (cd := sqrt (1 - noon_sd²)) in *. set (sd := noon_sd) in *.
  pose proof PI_RGT_0 as Hpi.
  split.
  - apply asin_pos.
    pose proof (mul_enclosure cd ct _ _ _ _ (conj D3 D4) (conj T3 T4)
                  ltac:(lra) ltac:(lra)) as M.
    pose proof (mul_enclosure (cd * ct) cl _ _ _ _ M (conj L3 L4)
                  ltac:(lra) ltac:(lra)) as [M1 _].
    assert (N : - (3079 / 10000 * (7531105 / 10000000)) <= sd * sl) by nra.
    lra.
  - assert (HD : 96 / 100 <= ct * sl - sd / cd * cl).
    { pose proof (mul_enclosure ct sl _ _ _ _ (conj T3 T4) (conj L1 L2)
                    ltac:(lra) ltac:(lra)) as [M1 _].
      assert (Q : - sd / cd * cl = - (sd / cd * cl)) by (field; lra).
      assert (E1 : (3078 / 10000) / (9515 / 10000) <= - sd / cd <= (3079 / 10000) / (9514 / 10000))
        by (apply div_enclosure; lra).
      pose proof (mul_enclosure (- sd / cd) cl _ _ _ _ E1 (conj L3 L4)
                    ltac:(lra) ltac:(lra)) as [M2 _].
      lra. }
    set (D := ct * sl - sd / cd * cl) in *.
    rewrite atan2_right by lra.
    assert (Hy : - (174 / 10000) < st / D < 0).
    { assert (HDi : 0 < / D) by (apply Rinv_0_lt_compat; lra).
      assert (HDi1 : / D <= / (96 / 100)) by (apply Rinv_le_contravar; lra).
      unfold Rdiv. set (k := / D) in *. split; nra. }
    assert (Ha : - (PI / 180) < atan (st / D) < 0).
    { split.
      - rewrite <- (atan_tan (- (PI / 180))) by lra.
        apply atan_increasing. rewrite tan_neg.
        pose proof tan_one_degree. lra.
      - rewrite <- atan_0. apply atan_increasing. lra. }
    rewrite wrap_to_pi_fixed by lra. lra.
Qed.

Local Close Scope R_scope.

(** * Further properties of the code *)

(** ** Painting: [interpolate_rgbw], [set_area], [uni], [paris] *)

Lemma interpolate_byte (a b : Z) (t : Q) :
  is_byte a = true -> is_byte b = true ->
  is_byte (int_of_Q (interpolate a b t)) = true.
Proof.
  rewrite !is_byte_iff. intros Ha Hb.
  pose proof (int_of_Q_between _ _ _ (Z.min_glb _ _ _ (proj1 Ha) (proj1 Hb))
                (interpolate_between a b t)). lia.
Qed.

Lemma interpolate_rgbw_bytes (a b : color) (t : Q) :
  byte_color a -> byte_color b -> byte_color (interpolate_rgbw a b t).
Proof.
  destruct a as [[[a0 a1] a2] a3], b as [[[b0 b1] b2] b3].
  unfold byte_color, interpolate_rgbw, channels. cbn [forallb].
  rewrite !andb_true_r, !andb_true_iff.
  intros (A0 & A1 & A2 & A3) (B0 & B1 & B2 & B3).
  repeat split; apply interpolate_byte; assumption.
Qed.

(** With byte colors and a size other than zero, one iteration of [set_area]
    stores the interpolated color at pixel [i mod n]. *)
Lemma set_area_body_runs (center size : Z) (primary secondary : color)
    (direct : bool) (i : Z) (ch : list Z) (s : state) :
  byte_color primary -> byte_color secondary -> size <> 0 ->
  exists s',
    set_area_body center size primary secondary direct i (ch, s)
    = OK (set_add (i mod n * 4) ch, s') /\
    painted direct s'
    = setslice (painted direct s) (i mod n * 4) (i mod n * 4 + 4)
        (channels (interpolate_rgbw primary secondary (gradient_t center size i))) /\
    unpainted direct s' = unpainted direct s /\ wire s' = wire s.
Proof.
  intros Hp Hs Hsize. unfold set_area_body, float_div.
  destruct (size =? 0) eqn:E; [lia|]. cbn [bind].
  pose proof (interpolate_rgbw_bytes primary secondary (gradient_t center size i) Hp Hs)
    as Hc.
  unfold gradient_t in *. unfold bytearray. unfold byte_color in Hc. rewrite Hc.
  cbn [bind]. eexists. split; [reflexivity|]. destruct direct; auto.
Qed.

Lemma forallb_firstn {A : Type} (f : A -> bool) (k : nat) (l : list A) :
  forallb f l = true -> forallb f (firstn k l) = true.
Proof.
  intro H. rewrite <- (firstn_skipn k l), forallb_app in H.
  apply andb_true_iff in H. apply H.
Qed.

Lemma forallb_skipn {A : Type} (f : A -> bool) (k : nat) (l : list A) :
  forallb f l = true -> forallb f (skipn k l) = true.
Proof.
  intro H. rewrite <- (firstn_skipn k l), forallb_app in H.
  apply andb_true_iff in H. apply H.
Qed.

Lemma bytes_setslice_pixel (buf v : list Z) (p : Z) :
  Z.of_nat (length buf) = n * 4 -> 0 <= p < n ->
  forallb is_byte buf = true -> forallb is_byte v = true ->
  forallb is_byte (setslice buf (p * 4) (p * 4 + 4) v) = true.
Proof.
  intros Hlen Hp Hb Hv. rewrite setslice_pixel by assumption.
  rewrite !forallb_app, Hv, forallb_firstn, forallb_skipn by exact Hb.
  reflexivity.
Qed.

Lemma range_nil (a b : Z) : b <= a -> range a b = [].
Proof. intro H. unfold range. replace (Z.to_nat (b - a)) with 0%nat by lia. reflexivity. Qed.

Lemma range_cons (a b : Z) : a < b -> range a b = a :: range (a + 1) b.
Proof.
  intro H. unfold range.
  replace (Z.to_nat (b - a)) with (S (Z.to_nat (b - (a + 1)))) by lia.
  cbn [seq map]. f_equal; [lia|].
  rewrite <- seq_shift, map_map. apply map_ext. intro k. lia.
Qed.

(** Where a range is cut, the part before holds what is below the cut. *)
Lemma range_split (a b x : Z) (p q : list Z) :
  range a b = p ++ x :: q -> a <= x < b /\ forall i, In i p -> a <= i < x.
Proof.
  revert a. induction p as [|y p IH]; intros a E.
  - destruct (Z_lt_ge_dec a b) as [H|H].
    + rewrite range_cons in E by exact H. injection E as <- _.
      split; [lia|]. intros i [].
    + rewrite range_nil in E by lia. discriminate.
  - destruct (Z_lt_ge_dec a b) as [H|H].
    + rewrite range_cons in E by exact H. injection E as <- E.
      destruct (IH _ E) as [Hx Hp]. split; [lia|].
      intros i [<-|Hi]; [lia|]. specialize (Hp i Hi). lia.
    + rewrite range_nil in E by lia. discriminate.
Qed.

Lemma for_each_invariant_split {A S : Type} (body : A -> S -> result S) (l : list A) :
  forall (P : list A -> S -> Prop) (s : S),
    P [] s ->
    (forall p x q s, l = p ++ x :: q -> P p s ->
                     exists s', body x s = OK s' /\ P (p ++ [x]) s') ->
    exists s', for_each l body s = OK s' /\ P l s'.
Proof.
  induction l as [|x l IH]; intros P s H0 Hstep; cbn [for_each].
  - exists s. split; [reflexivity|exact H0].
  - destruct (Hstep [] x l s eq_refl H0) as [s1 [E1 P1]].
    rewrite E1. cbn [bind].
    apply (IH (fun p => P (x :: p)) s1 P1).
    intros p y q s2 El Hp.
    apply (Hstep (x :: p) y q s2); [rewrite El; reflexivity|exact Hp].
Qed.

Lemma mod_n_distinct (i j : Z) : i <> j -> - n < i - j < n -> i mod n <> j mod n.
Proof. unfold n. intros Hne Hd. Z.to_euclidean_division_equations. lia. Qed.

(** [set_area] with byte colors on buffers of [n] pixels, for a window that
    fits the ring: it completes, every pixel of the window holds the color
    interpolated at its position, every other pixel and the other buffer are
    kept, and the set returned holds exactly the offsets of the window. *)
Lemma set_area_paints (center size : Z) (primary secondary : color) (direct : bool)
    (st : state) :
  byte_color primary -> byte_color secondary -> sized st -> size <= n ->
  exists changed st',
    set_area center size primary secondary direct st = OK (changed, st') /\
    sized st' /\ unpainted direct st' = unpainted direct st /\ wire st' = wire st /\
    (forallb is_byte (painted direct st) = true ->
     forallb is_byte (painted direct st') = true) /\
    (forall idx, In idx changed <->
       exists i, center - size / 2 <= i < center + size / 2 + size mod 2 /\
                 idx = i mod n * 4) /\
    (forall i, center - size / 2 <= i < center + size / 2 + size mod 2 ->
       pixel_at (painted direct st') (i mod n)
       = channels (interpolate_rgbw primary secondary (gradient_t center size i))) /\
    (forall p, 0 <= p < n ->
       (forall i, center - size / 2 <= i < center + size / 2 + size mod 2 ->
                  p <> i mod n) ->
       pixel_at (painted direct st') p = pixel_at (painted direct st) p).
Proof.
  intros Hp Hs Hsz Hfit. unfold set_area.
  set (lo := center - size / 2). set (hi := center + size / 2 + size mod 2).
  assert (Hw : hi - lo <= n).
  { subst lo hi. pose proof (Z.div_mod size 2 ltac:(lia)).
    pose proof (Z.mod_pos_bound size 2 ltac:(lia)). lia. }
  destruct (for_each_invariant_split
    (set_area_body center size primary secondary direct) (range lo hi)
    (fun p acc =>
       sized (snd acc) /\ unpainted direct (snd acc) = unpainted direct st /\
       wire (snd acc) = wire st /\
       (forallb is_byte (painted direct st) = true ->
        forallb is_byte (painted direct (snd acc)) = true) /\
       (forall idx, In idx (fst acc) <-> exists i, In i p /\ idx = i mod n * 4) /\
       (forall i, In i p ->
          pixel_at (painted direct (snd acc)) (i mod n)
          = channels (interpolate_rgbw primary secondary (gradient_t center size i))) /\
       (forall q, 0 <= q < n -> (forall i, In i p -> q <> i mod n) ->
          pixel_at (painted direct (snd acc)) q = pixel_at (painted direct st) q))
    ([], st)) as [[changed st'] [E (S1 & S2 & S3 & S4 & S5 & S6 & S7)]].
  - cbn [fst snd].
    split; [exact Hsz|]. split; [reflexivity|]. split; [reflexivity|].
    split; [auto|]. split; [|split].
    + intro idx. split; [intros []|intros [i [[] _]]].
    + intros i [].
    + reflexivity.
  - intros p x q [ch s] El (I1 & I2 & I3 & I4 & I5 & I6 & I7). cbn [fst snd] in *.
    destruct (range_split _ _ _ _ _ El) as [Hx Hbefore].
    assert (Hsize : size <> 0).
    { apply Z.neq_sym, Z.lt_neq.
      apply (set_area_window center size x). apply in_range. exact Hx. }
    destruct (set_area_body_runs center size primary secondary direct x ch s Hp Hs Hsize)
      as [s' (Eb & Hpaint & Hun & Hwire)].
    exists (set_add (x mod n * 4) ch, s'). split; [exact Eb|]. cbn [fst snd].
    pose proof (mod_n_range x) as Hxn.
    pose proof (sized_painted_length direct s I1) as Hlen.
    set (c := interpolate_rgbw primary secondary (gradient_t center size x)) in *.
    split; [|split; [|split; [|split; [|split; [|split]]]]].
    + apply (sized_painted direct s s' (channels c) (x mod n));
        auto using length_channels.
    + congruence.
    + congruence.
    + intro Hb. rewrite Hpaint. apply bytes_setslice_pixel; auto.
      apply (interpolate_rgbw_bytes primary secondary _ Hp Hs).
    + intro idx. rewrite set_add_spec, I5. split.
      * intros [->|[i [Hi ->]]].
        -- exists x. split; [apply in_or_app; right; left; reflexivity|reflexivity].
        -- exists i. split; [apply in_or_app; left; exact Hi|reflexivity].
      * intros [i [Hi ->]]. apply in_app_or in Hi. destruct Hi as [Hi|[<-|[]]].
        -- right. exists i. auto.
        -- left. reflexivity.
    + intros i Hi. rewrite Hpaint. apply in_app_or in Hi.
      destruct Hi as [Hi|[<-|[]]].
      * rewrite pixel_at_setslice_other; auto using length_channels.
        -- apply mod_n_range.
        -- specialize (Hbefore i Hi). apply mod_n_distinct; lia.
      * apply pixel_at_setslice_same; assumption.
    + intros r Hr Hout. rewrite Hpaint.
      rewrite pixel_at_setslice_other; auto using length_channels; try lia.
      * apply I7; [exact Hr|]. intros i Hi. apply Hout. apply in_or_app. auto.
      * apply Hout. apply in_or_app. right. left. reflexivity.
  - cbn [fst snd] in *. exists changed, st'. split; [exact E|].
    split; [exact S1|]. split; [exact S2|]. split; [exact S3|].
    split; [exact S4|]. split; [|split].
    + intro idx. rewrite S5. split; intros [i [Hi ->]]; exists i;
        (split; [apply in_range; exact Hi|reflexivity]).
    + intros i Hi. apply S6. apply in_range. exact Hi.
    + intros p Hp' Hout. apply S7; [exact Hp'|]. intros i Hi. apply Hout.
      apply in_range. exact Hi.
Qed.


(** [int] agrees on equal rationals. *)
Lemma int_of_Q_comp (q q' : Q) : (q == q')%Q -> int_of_Q q = int_of_Q q'.
Proof.
  unfold Qeq, int_of_Q. intro H.
  rewrite <- (Z.quot_mul_cancel_r (Qnum q) (Z.pos (Qden q)) (Z.pos (Qden q')))
    by discriminate.
  rewrite H, (Z.mul_comm (Z.pos (Qden q))).
  apply Z.quot_mul_cancel_r; discriminate.
Qed.

Lemma clampQ_inside (t : Q) : (0 <= t <= 1)%Q -> clampQ t 0 1 = t.
Proof.
  intros [H0 H1]. unfold clampQ, Qmax_py, Qmin_py.
  destruct (Qltb 1 t) eqn:E1; [apply Qltb_true in E1; lra|].
  destruct (Qltb t 0) eqn:E2; [apply Qltb_true in E2; lra|]. reflexivity.
Qed.

Lemma clampQ_below (t : Q) : (t <= 0)%Q -> (clampQ t 0 1 == 0)%Q.
Proof.
  intro H. unfold clampQ, Qmax_py, Qmin_py.
  destruct (Qltb 1 t) eqn:E1; [apply Qltb_true in E1; lra|].
  destruct (Qltb t 0) eqn:E2; [reflexivity|]. apply Qltb_false in E2. lra.
Qed.

Lemma clampQ_above (t : Q) : (1 <= t)%Q -> (clampQ t 0 1 == 1)%Q.
Proof.
  intro H. unfold clampQ, Qmax_py, Qmin_py.
  destruct (Qltb 1 t) eqn:E1.
  - destruct (Qltb 1 0) eqn:E2; [apply Qltb_true in E2; lra|reflexivity].
  - apply Qltb_false in E1.
    destruct (Qltb t 0) eqn:E2; [apply Qltb_true in E2; lra|]. lra.
Qed.

Lemma interpolate_low (a b : Z) (t : Q) : (t <= 0)%Q -> int_of_Q (interpolate a b t) = a.
Proof.
  intro H. apply int_of_Q_inject. unfold interpolate.
  rewrite (clampQ_below t H). ring.
Qed.

Lemma interpolate_high (a b : Z) (t : Q) : (1 <= t)%Q -> int_of_Q (interpolate a b t) = b.
Proof.
  intro H. apply int_of_Q_inject. unfold interpolate.
  rewrite (clampQ_above t H), inject_Z_sub. ring.
Qed.

(** Two buffers of [n] pixels that agree pixel by pixel are equal. *)
Lemma buffers_ext (l l' : list Z) :
  Z.of_nat (length l) = n * 4 -> Z.of_nat (length l') = n * 4 ->
  (forall p, 0 <= p < n -> pixel_at l p = pixel_at l' p) -> l = l'.
Proof.
  intros Hl Hl' Hp. apply (nth_ext _ _ 0 0); [lia|].
  intros k Hk.
  assert (Hq : 0 <= Z.of_nat k / 4 < n).
  { unfold n in *. split; [apply Z.div_pos; lia|apply Z.div_lt_upper_bound; lia]. }
  specialize (Hp _ Hq). unfold pixel_at in Hp. cbn [map] in Hp.
  pose proof (Z.div_mod (Z.of_nat k) 4 ltac:(lia)) as Hd.
  pose proof (Z.mod_pos_bound (Z.of_nat k) 4 ltac:(lia)) as Hm.
  injection Hp as H0 H1 H2 H3. unfold byte_at in *.
  assert (Hc : Z.of_nat k mod 4 = 0 \/ Z.of_nat k mod 4 = 1 \/
               Z.of_nat k mod 4 = 2 \/ Z.of_nat k mod 4 = 3) by lia.
  destruct Hc as [Hc|[Hc|[Hc|Hc]]].
  - replace k with (Z.to_nat (Z.of_nat k / 4 * 4 + 0)) by lia. exact H0.
  - replace k with (Z.to_nat (Z.of_nat k / 4 * 4 + 1)) by lia. exact H1.
  - replace k with (Z.to_nat (Z.of_nat k / 4 * 4 + 2)) by lia. exact H2.
  - replace k with (Z.to_nat (Z.of_nat k / 4 * 4 + 3)) by lia. exact H3.
Qed.

Lemma length_concat_repeat (l : list Z) (m : nat) :
  length (concat (repeat l m)) = (m * length l)%nat.
Proof.
  induction m as [|m IH]; [reflexivity|].
  cbn [repeat concat]. rewrite length_app, IH. lia.
Qed.

Lemma nth_concat_repeat (l : list Z) (m p ch : nat) :
  (p < m)%nat -> (ch < length l)%nat ->
  nth (p * length l + ch) (concat (repeat l m)) 0 = nth ch l 0.
Proof.
  revert p. induction m as [|m IH]; intros p Hp Hch; [lia|].
  cbn [repeat concat]. destruct p as [|p].
  - rewrite app_nth1 by lia. reflexivity.
  - rewrite app_nth2 by lia.
    replace (S p * length l + ch - length l)%nat with (p * length l + ch)%nat by lia.
    apply IH; lia.
Qed.

Lemma length_filled (c : color) : Z.of_nat (length (filled c)) = n * 4.
Proof.
  unfold filled. rewrite length_concat_repeat, length_channels. unfold n. lia.
Qed.

Lemma pixel_at_filled (c : color) (p : Z) :
  0 <= p < n -> pixel_at (filled c) p = channels c.
Proof.
  intro Hp. unfold pixel_at, byte_at, filled. cbn [map].
  pose proof (length_channels c) as Hl.
  assert (H : forall ch, 0 <= ch < 4 ->
            nth (Z.to_nat (p * 4 + ch))
              (concat (repeat (channels c) (Z.to_nat n))) 0
            = nth (Z.to_nat ch) (channels c) 0).
  { intros ch Hch.
    replace (Z.to_nat (p * 4 + ch))
      with (Z.to_nat p * length (channels c) + Z.to_nat ch)%nat by lia.
    apply nth_concat_repeat; lia. }
  rewrite (H 0), (H 1), (H 2), (H 3) by lia.
  destruct c as [[[c0 c1] c2] c3]. reflexivity.
Qed.

(** [uni] with a color of bytes overwrites the whole target with it. *)
Lemma uni_fills (c : color) (st : state) :
  byte_color c -> sized st -> uni c st = OK (with_leds_1 st (filled c)).
Proof.
  intros Hc [H0 H1]. unfold uni.
  destruct (for_each_invariant
    (fun i s => b <- bytearray (channels c) ;;
                OK (with_leds_1 s (setslice (leds_1 s) (i * 4) (i * 4 + 4) b)))
    (range 0 n)
    (fun p s =>
       leds_0 s = leds_0 st /\ wire s = wire st /\
       Z.of_nat (length (leds_1 s)) = n * 4 /\
       (forall i, In i p -> 0 <= i < n) /\
       (forall i, In i p -> pixel_at (leds_1 s) i = channels c))
    st) as [s [E (S0 & S1 & S2 & _ & S3)]].
  - split; [reflexivity|]. split; [reflexivity|]. split; [exact H1|].
    split; intros j [].
  - intros p x s Hx (I0 & I1 & I2 & I3 & I4). apply in_range in Hx.
    unfold bytearray. unfold byte_color in Hc. rewrite Hc. cbn [bind].
    eexists. split; [reflexivity|]. cbn [with_leds_1 leds_0 leds_1 wire].
    split; [exact I0|]. split; [exact I1|]. split; [|split].
    + rewrite length_setslice_pixel; auto using length_channels.
    + intros i Hi. apply in_app_or in Hi. destruct Hi as [Hi|[<-|[]]]; auto.
    + intros i Hi. destruct (Z.eq_dec i x) as [->|Hne].
      * apply pixel_at_setslice_same; assumption.
      * apply in_app_or in Hi. destruct Hi as [Hi|[Hi|[]]]; [|congruence].
        rewrite pixel_at_setslice_other; auto using length_channels.
        apply (I3 i Hi).
  - rewrite E. f_equal. destruct s as [l0 l1 w].
    cbn [leds_0 leds_1 wire] in *. subst l0 w.
    unfold with_leds_1. f_equal.
    apply buffers_ext; [exact S2|apply length_filled|].
    intros p Hp. rewrite pixel_at_filled by exact Hp.
    apply S3. apply in_range. lia.
Qed.

Lemma same_pixel_eq (a b : list Z) : same_pixel a b = true -> a = b.
Proof. unfold same_pixel. destruct (list_eq_dec Z.eq_dec a b); [auto|discriminate]. Qed.

(** Whatever the target held, [paris] replaces it by one and the same scene
    and leaves the current buffer and the wire alone. *)
Lemma paris_scene_from (st : state) :
  sized st -> paris st = OK (with_leds_1 st paris_scene).
Proof.
  intro Hs. unfold paris. rewrite uni_fills by (try exact Hs; reflexivity).
  cbn [bind]. destruct st as [l0 l1 w]. unfold with_leds_1.
  cbn [leds_0 leds_1 wire].
  vm_compute. reflexivity.
Qed.

(** ** The animator never overshoots *)

Lemma blend_byte_on_the_way (t : Q) (k : Z) (from : list Z) (st : state) :
  well_formed st -> 0 <= k < n * 4 ->
  on_the_way from (leds_1 st) (leds_0 st) ->
  exists st',
    blend_byte t k st = OK st' /\ well_formed st' /\
    leds_1 st' = leds_1 st /\ wire st' = wire st /\
    on_the_way from (leds_1 st) (leds_0 st').
Proof.
  intros Hwf Hk Hway.
  destruct (blend_byte_spec t k st Hwf Hk) as [st' (E & Hwf' & H1 & Hw & Hnew & Hold)].
  exists st'. repeat (split; [assumption|]).
  intros j Hj. destruct (Z.eq_dec j k) as [->|Hne].
  - rewrite Hnew. specialize (Hway k Hk). unfold in_between in *.
    destruct Hwf as [B0 B1].
    pose proof (byte_at_bounds _ k B0 Hk) as Ha.
    pose proof (byte_at_bounds _ k B1 Hk) as Hb.
    pose proof (int_of_Q_between _ _ _ (Z.min_glb _ _ _ (proj1 Ha) (proj1 Hb))
                  (interpolate_between (byte_at (leds_0 st) k)
                     (byte_at (leds_1 st) k) t)). lia.
  - rewrite Hold by lia. apply Hway. exact Hj.
Qed.

Lemma apply_step_on_the_way (steps : Z) (pixels : option (list Z)) (i : Z)
    (from : list Z) (st : state) :
  steps <> 0 -> well_formed st -> valid_pixels pixels ->
  on_the_way from (leds_1 st) (leds_0 st) ->
  exists st',
    apply_step steps pixels i st = OK st' /\ well_formed st' /\
    leds_1 st' = leds_1 st /\ wire st' = wire st ++ [leds_0 st'] /\
    on_the_way from (leds_1 st) (leds_0 st').
Proof.
  intros Hs Hwf Hv Hway. rewrite apply_step_affected by exact Hs.
  destruct (for_each_invariant
    (blend_byte (inject_Z (i + 1) / inject_Z steps)%Q) (affected pixels)
    (fun _ s => well_formed s /\ leds_1 s = leds_1 st /\ wire s = wire st /\
                on_the_way from (leds_1 st) (leds_0 s))
    st) as [s [E (Hwf' & H1 & Hw & Hway')]].
  - auto.
  - intros _ k s Hk (Hwf' & H1 & Hw & Hway').
    rewrite <- H1 in Hway'.
    destruct (blend_byte_on_the_way (inject_Z (i + 1) / inject_Z steps)%Q k from s
                Hwf' (affected_valid pixels k Hv Hk) Hway')
      as [s' (E & Hwf'' & H1' & Hw' & Hway'')].
    exists s'. split; [exact E|]. rewrite H1 in Hway''.
    split; [exact Hwf''|]. split; [congruence|]. split; [congruence|exact Hway''].
  - exists (neopixel_write s). rewrite E. cbn [bind].
    split; [reflexivity|]. split; [exact Hwf'|]. split; [exact H1|].
    split; [cbn; rewrite Hw; reflexivity|exact Hway'].
Qed.

(** X1. [apply] never overshoots.  For every number of steps [steps >= 0],
    every state of byte buffers and every set of whole pixels, [apply]
    completes, leaves the target alone and hands exactly [steps] frames to
    the driver; in every one of them, as in the final current buffer, every
    byte lies between the value it started from and its target. *)
Theorem apply_never_overshoots (steps : Z) (pixels : option (list Z)) (st : state) :
  0 <= steps -> well_formed st -> valid_pixels pixels ->
  exists st' frames,
    apply steps pixels st = OK st' /\ well_formed st' /\
    leds_1 st' = leds_1 st /\
    wire st' = wire st ++ frames /\ Z.of_nat (length frames) = steps /\
    Forall (on_the_way (leds_0 st) (leds_1 st)) frames /\
    on_the_way (leds_0 st) (leds_1 st) (leds_0 st').
Proof.
  intros Hs Hwf Hv. unfold apply.
  assert (Hself : on_the_way (leds_0 st) (leds_1 st) (leds_0 st)).
  { intros k _. unfold in_between. lia. }
  destruct (for_each_invariant (apply_step steps pixels) (range 0 steps)
    (fun p s =>
       well_formed s /\ leds_1 s = leds_1 st /\
       (exists frames, wire s = wire st ++ frames /\ length frames = length p /\
                       Forall (on_the_way (leds_0 st) (leds_1 st)) frames) /\
       on_the_way (leds_0 st) (leds_1 st) (leds_0 s))
    st) as [s [E (Hwf' & H1 & [frames (Hw & Hlen & Hall)] & Hway)]].
  - split; [exact Hwf|]. split; [reflexivity|]. split; [|exact Hself].
    exists []. rewrite app_nil_r. auto.
  - intros p i s Hi (Hwf' & H1 & [frames (Hw & Hlen & Hall)] & Hway).
    apply in_range in Hi. rewrite <- H1 in Hway.
    destruct (apply_step_on_the_way steps pixels i (leds_0 st) s ltac:(lia) Hwf' Hv Hway)
      as [s' (E & Hwf'' & H1' & Hw' & Hway')].
    rewrite H1 in Hway'.
    exists s'. split; [exact E|].
    split; [exact Hwf''|]. split; [congruence|]. split; [|exact Hway'].
    exists (frames ++ [leds_0 s']). rewrite Hw', Hw, <- app_assoc.
    split; [reflexivity|]. split; [rewrite !length_app; cbn; lia|].
    apply Forall_app. split; [exact Hall|]. constructor; [exact Hway'|constructor].
  - exists s, frames. split; [exact E|]. split; [exact Hwf'|]. split; [exact H1|].
    split; [exact Hw|]. split; [|split; assumption].
    rewrite Hlen. unfold range. rewrite length_map, length_seq. lia.
Qed.

Lemma apply_never_overshoots_witness :
  exists st' frames,
    apply 10 (Some [0; 4]) fading_state = OK st' /\ well_formed st' /\
    leds_1 st' = leds_1 fading_state /\
    wire st' = wire fading_state ++ frames /\ Z.of_nat (length frames) = 10 /\
    Forall (on_the_way (leds_0 fading_state) (leds_1 fading_state)) frames /\
    on_the_way (leds_0 fading_state) (leds_1 fading_state) (leds_0 st').
Proof.
  apply (apply_never_overshoots 10 (Some [0; 4]) fading_state).
  - lia.
  - split; split; reflexivity.
  - intros j [<-|[<-|[]]]; unfold n; lia.
Defined.

(** ** Julian day *)

(** X6. The day number of [calc_solar_position] is not a day count around
    February: in every year 1 February is numbered no later than
    31 January, and 1 March is numbered three days after 28 February. *)
Theorem jd_skips_at_february (y : Z) :
  jd y 2 1 <= jd y 1 31 /\ jd y 3 1 = jd y 2 28 + 3.
Proof.
  unfold jd. split.
  - close_divs; Z.to_euclidean_division_equations; lia.
  - close_divs; Z.to_euclidean_division_equations; lia.
Qed.

(** ** Geometry: intersections, the mapper, angles *)

Local Open Scope R_scope.

Lemma Rltb_spec_true (x y : R) : Rltb x y = true -> x < y.
Proof. unfold Rltb. destruct (Rlt_dec x y); [auto|discriminate]. Qed.

Lemma Rltb_spec_false (x y : R) : Rltb x y = false -> y <= x.
Proof. unfold Rltb. destruct (Rlt_dec x y); [discriminate|lra]. Qed.

Lemma Rabs_not_small (x e : R) : 0 < e -> Rltb (Rabs x) e = false -> x <> 0.
Proof.
  intros He H. apply Rltb_spec_false in H. intros ->. rewrite Rabs_R0 in H. lra.
Qed.

Lemma ahead_of_center (s0 s1 s2 a0 a1 : R) :
  s2 < 0 -> s0 * a1 - s1 * a0 < 0 -> 0 < s0 / s2 * a1 - s1 / s2 * a0.
Proof.
  intros H2 H. replace (s0 / s2 * a1 - s1 / s2 * a0)
    with ((s0 * a1 - s1 * a0) * / s2) by (field; lra).
  pose proof (Rinv_lt_0_compat _ H2). nra.
Qed.

Lemma sum_squares_pos (a b : R) : a <> 0 \/ b <> 0 -> 0 < a * a + b * b.
Proof.
  intros [H|H]; pose proof (Rsqr_pos_lt _ H) as Hp; unfold Rsqr in Hp;
    [pose proof (Rle_0_sqr b) as Hq | pose proof (Rle_0_sqr a) as Hq];
    unfold Rsqr in Hq; lra.
Qed.

(** What an accepted edge returns: the point where the line [axis] meets
    the line of that side, within the tolerance of the frame; for a line
    through the center, the point lies ahead of the center (in the direction
    [(v1 axis, - v0 axis)]), not behind it. *)
Lemma border_intersection_sound (w2 h2 : R) (axis : vec3) (i : nat) (s : side)
    (x y : R) :
  0 < w2 -> 0 < h2 -> (i < 4)%nat ->
  border_intersection w2 h2 axis i = Some (s, (x, y)) ->
  s = side_map i /\
  v0 axis * x + v1 axis * y + v2 axis = 0 /\
  on_side w2 h2 s x y /\
  (- w2 - eps < x < w2 + eps /\ - h2 - eps < y < h2 + eps) /\
  (v2 axis = 0 -> 0 < x * v1 axis - y * v0 axis).
Proof.
  intros Hw Hh Hi. destruct axis as [[a0 a1] a2].
  assert (Hc : i = 0%nat \/ i = 1%nat \/ i = 2%nat \/ i = 3%nat) by lia.
  unfold border_intersection, frame.
  destruct Hc as [-> | [-> | [-> | ->]]];
    cbn [nth Nat.modulo Nat.add Nat.sub fst snd Nat.divmod];
    unfold cross, v0, v1, v2; cbn [fst snd];
    (destruct (Rltb (Rabs _) eps) eqn:E1; [discriminate|]);
    (destruct (Rltb (Rabs _) eps && Rltb (Rabs _) eps); [discriminate|]);
    (destruct (Rltb 0 _) eqn:E3; [discriminate|]);
    (destruct (Rltb _ _ && Rltb _ _ && Rltb _ _ && Rltb _ _) eqn:E4; [|discriminate]);
    intro H; injection H as Hs Hx Hy; subst s x y;
    apply Rabs_not_small in E1; try (unfold eps; lra);
    apply Rltb_spec_false in E3;
    apply andb_true_iff in E4; destruct E4 as [E4 B4];
    apply andb_true_iff in E4; destruct E4 as [E4 B3];
    apply andb_true_iff in E4; destruct E4 as [B1 B2];
    apply Rltb_spec_true in B1, B2, B3, B4;
    (split; [reflexivity|]); (split; [field; intro Hz; apply E1; lra|]);
    (split; [|split; [split; split; assumption|]]);
    cbn [on_side side_map].
  all: try (intros ->; apply ahead_of_center; [lra|];
            assert (Hwh : 0 < w2 * h2) by nra;
            match goal with
            | |- ?e < 0 =>
                replace e with (- (2 * (w2 * h2) * (a0 * a0 + a1 * a1))) by ring
            end).
  - assert (a0 <> 0) by (intros ->; apply E1; ring). field. lra.
  - assert (a0 <> 0) by (intros ->; apply E1; ring).
    pose proof (sum_squares_pos a0 a1 (or_introl H)). nra.
  - assert (a1 <> 0) by (intros ->; apply E1; ring). field. lra.
  - assert (a1 <> 0) by (intros ->; apply E1; ring).
    pose proof (sum_squares_pos a0 a1 (or_intror H)). nra.
  - assert (a0 <> 0) by (intros ->; apply E1; ring). field. lra.
  - assert (a0 <> 0) by (intros ->; apply E1; ring).
    pose proof (sum_squares_pos a0 a1 (or_introl H)). nra.
  - assert (a1 <> 0) by (intros ->; apply E1; ring). field. lra.
  - assert (a1 <> 0) by (intros ->; apply E1; ring).
    pose proof (sum_squares_pos a0 a1 (or_intror H)). nra.
Qed.

Lemma first_intersection_found (w2 h2 : R) (axis : vec3) (edges : list nat)
    (r : side * (R * R)) :
  first_intersection w2 h2 axis edges = Some r ->
  exists i, In i edges /\ border_intersection w2 h2 axis i = Some r.
Proof.
  induction edges as [|j edges IH]; cbn [first_intersection]; [discriminate|].
  destruct (border_intersection w2 h2 axis j) as [r'|] eqn:E.
  - intro H. injection H as ->. exists j. split; [left; reflexivity|exact E].
  - intro H. destruct (IH H) as [i [Hi Hb]]. exists i. split; [right|]; assumption.
Qed.

(** X2. What the scan of [get_border_intersections] returns is a genuine
    intersection: for a frame of positive width and height and any line
    [axis], a returned point [(x, y)] lies on that line, on the straight
    line through the side that is named, and within the frame up to the
    tolerance [1e-3]. *)
Theorem get_border_intersections_sound (w h : R) (axis : vec3) (s : side)
    (x y : R) :
  0 < w -> 0 < h ->
  get_border_intersections w h axis = Some (s, (x, y)) ->
  v0 axis * x + v1 axis * y + v2 axis = 0 /\
  on_side (w / 2) (h / 2) s x y /\
  - (w / 2) - eps < x < w / 2 + eps /\ - (h / 2) - eps < y < h / 2 + eps.
Proof.
  intros Hw Hh H. unfold get_border_intersections in H.
  apply first_intersection_found in H. destruct H as [i [Hi Hb]].
  assert (Hlt : (i < 4)%nat) by (apply in_seq in Hi; lia).
  apply border_intersection_sound in Hb; [|lra|lra|exact Hlt].
  destruct Hb as [_ [Hline [Hside [[Hx Hy] _]]]].
  split; [exact Hline|]. split; [exact Hside|]. split; assumption.
Qed.

Lemma get_border_intersections_sound_witness :
  v0 (1, 0, 0) * 0 + v1 (1, 0, 0) * - (height / 2) + v2 (1, 0, 0) = 0 /\
  on_side (width / 2) (height / 2) south 0 (- (height / 2)) /\
  - (width / 2) - eps < 0 < width / 2 + eps /\
  - (height / 2) - eps < - (height / 2) < height / 2 + eps.
Proof.
  apply (get_border_intersections_sound width height (1, 0, 0) south 0 (- (height / 2))).
  - unfold width. lra.
  - unfold height. lra.
  - exact south_intersection.
Defined.

Lemma round_bounds (x : R) (a b : Z) :
  IZR a - 1 / 2 < x < IZR b + 1 / 2 -> (a <= round x <= b)%Z.
Proof.
  intros [Hlo Hhi]. unfold round.
  destruct (base_Int_part x) as [F1 F2].
  set (f := Int_part x) in *.
  destruct (Rltb (x - IZR f) (1 / 2)) eqn:E1.
  - apply Rltb_spec_true in E1. split.
    + apply Z.lt_succ_r, lt_IZR. rewrite succ_IZR. lra.
    + apply Z.lt_succ_r, lt_IZR. rewrite succ_IZR. lra.
  - apply Rltb_spec_false in E1.
    assert (Hup : (a <= f + 1 <= b)%Z).
    { split.
      - apply Z.lt_succ_r, lt_IZR. rewrite succ_IZR, plus_IZR. lra.
      - apply Z.lt_succ_r, lt_IZR. rewrite succ_IZR, plus_IZR. lra. }
    destruct (Rltb (1 / 2) (x - IZR f)) eqn:E2; [exact Hup|].
    apply Rltb_spec_false in E2.
    destruct (Z.even f); [|exact Hup].
    split.
    + apply Z.lt_succ_r, lt_IZR. rewrite succ_IZR. lra.
    + lia.
Qed.

(** A ray from the center, in the direction [(c, s)], meets the frame: the
    scan returns a point of the named side that lies on the ray. *)
Lemma ray_meets_frame (c s : R) :
  c * c + s * s = 1 ->
  exists sd x y,
    get_border_intersections width height (- s, c, 0) = Some (sd, (x, y)) /\
    on_side (width / 2) (height / 2) sd x y /\
    (- (width / 2) - eps < x < width / 2 + eps /\
     - (height / 2) - eps < y < height / 2 + eps) /\
    x * s = y * c /\ 0 < x * c + y * s.
Proof.
  intro Hu.
  destruct (some_edge_accepts c s Hu) as [j [Hj Hne]].
  pose proof (first_intersection_some _ _ _ _ _ Hj Hne) as Hf.
  unfold get_border_intersections.
  destruct (first_intersection _ _ _ _) as [[sd [x y]]|] eqn:E; [|contradiction].
  apply first_intersection_found in E. destruct E as [i [Hi Hb]].
  assert (Hlt : (i < 4)%nat) by (apply in_seq in Hi; lia).
  apply border_intersection_sound in Hb;
    [|unfold width; lra|unfold height; lra|exact Hlt].
  destruct Hb as [_ [Hline [Hside [Hin Hdir]]]].
  unfold v0, v1, v2 in Hline, Hdir. cbn [fst snd] in Hline, Hdir.
  specialize (Hdir eq_refl).
  exists sd, x, y.
  split; [reflexivity|]. split; [exact Hside|]. split; [exact Hin|].
  split; lra.
Qed.

(** The strip position of a point of side [sd], rounded: the pixel lies on
    the arc of that side or is the last pixel of the arc before it. *)
Lemma led_at_on_arc (sd : side) (x y : R) :
  on_side (width / 2) (height / 2) sd x y ->
  - (width / 2) - eps < x < width / 2 + eps ->
  - (height / 2) - eps < y < height / 2 + eps ->
  led_at (unwind sd x y) = Z.max 0 (round (unwind sd x y * (6 / 10) - 1)) /\
  (in_arc sd (led_at (unwind sd x y)) = true \/
   in_arc sd (led_at (unwind sd x y) + 1) = true).
Proof.
  intros Hside Hx Hy.
  assert (Hr : (match sd with
                | south => -1 | west => 53 | north => 89 | east => 143
                end <= round (unwind sd x y * (6 / 10) - 1) <=
                match sd with
                | south => 53 | west => 89 | north => 143 | east => 179
                end)%Z).
  { apply round_bounds.
    unfold width, height, eps in *.
    destruct sd; cbn [on_side unwind] in *; unfold width, height; lra. }
  unfold led_at, clamp.
  split.
  - destruct sd; unfold n; lia.
  - rewrite !in_arc_spec.
    destruct sd; cbv [cardinals arc_start arc_end north_west north_east
                        south_east south_west cols rows n]; lia.
Qed.

(** X3. [intersect_angle_frame] maps every angle to a pixel of the side the
    ray leaves the frame by.  The scan finds a point of some side that lies
    on the ray from the center in the direction of the angle, not behind
    the center; the index is [max(0, round(0.6 cm - 1))], so of the sanity
    clamp only the lower bound ever acts; and the pixel lies on the arc of
    the side that was hit, or is the pixel just before that arc. *)
Theorem mapper_led_on_hit_side (angle : R) :
  exists s x y i,
    get_border_intersections width height
      (cross (0, 0, 1) (cos angle, sin angle, 1)) = Some (s, (x, y)) /\
    intersect_angle_frame angle = Some i /\
    on_side (width / 2) (height / 2) s x y /\
    x * sin angle = y * cos angle /\
    0 < x * cos angle + y * sin angle /\
    i = Z.max 0 (round (unwind s x y * (6 / 10) - 1)) /\
    (in_arc s i = true \/ in_arc s (i + 1) = true).
Proof.
  destruct (ray_meets_frame (cos angle) (sin angle) (unit_circle angle))
    as [s [x [y [Hg [Hside [[Hx Hy] [Hray Hdir]]]]]]].
  destruct (led_at_on_arc s x y Hside Hx Hy) as [Hled Harc].
  exists s, x, y, (led_at (unwind s x y)).
  unfold intersect_angle_frame. rewrite axis_of_angle, Hg.
  split; [reflexivity|]. split; [reflexivity|]. split; [exact Hside|].
  split; [exact Hray|]. split; [exact Hdir|]. split; [exact Hled|exact Harc].
Qed.

Lemma northclockwise2math_sin_cos (a : R) :
  sin (northclockwise2math a) = cos a /\ cos (northclockwise2math a) = sin a.
Proof.
  unfold northclockwise2math, wrap_to_pi.
  destruct (sin_cos_atan2 (2 * PI - a + PI / 2)) as [Hs Hc].
  rewrite Hs, Hc.
  replace (2 * PI - a + PI / 2) with ((PI / 2 - a) + 2 * PI) by lra.
  rewrite sin_plus, cos_plus, sin_2PI, cos_2PI.
  rewrite sin_shift, cos_shift. split; ring.
Qed.

(** X4. [northclockwise2math] followed by [intersect_angle_frame] turns a
    compass bearing into a pixel.  The converted angle lies in (-pi, pi],
    and the point the mapper finds for it lies in the direction of the
    bearing, north being up (+y) and east to the right (+x):
    [x cos azim = y sin azim] and [x sin azim + y cos azim > 0]. *)
Theorem compass_bearing_led (azim : R) :
  - PI < northclockwise2math azim <= PI /\
  exists s x y i,
    get_border_intersections width height
      (cross (0, 0, 1)
         (cos (northclockwise2math azim), sin (northclockwise2math azim), 1))
      = Some (s, (x, y)) /\
    intersect_angle_frame (northclockwise2math azim) = Some i /\
    i = led_at (unwind s x y) /\
    x * cos azim = y * sin azim /\
    0 < x * sin azim + y * cos azim.
Proof.
  split; [apply wrap_to_pi_range|].
  destruct (northclockwise2math_sin_cos azim) as [Hs Hc].
  unfold intersect_angle_frame. rewrite axis_of_angle, Hs, Hc.
  assert (Hu : sin azim * sin azim + cos azim * cos azim = 1).
  { pose proof (unit_circle azim). lra. }
  destruct (ray_meets_frame (sin azim) (cos azim) Hu)
    as [s [x [y [Hg [_ [_ [Hray Hdir]]]]]]].
  exists s, x, y, (led_at (unwind s x y)). rewrite Hg.
  split; [reflexivity|]. split; [reflexivity|]. split; [reflexivity|].
  split; [exact Hray|exact Hdir].
Qed.


(** ** Ephemeris *)



Local Close Scope R_scope.

(** ** Scenes *)


Lemma interpolate_rgbw_low (a b : color) (t : Q) :
  (t <= 0)%Q -> interpolate_rgbw a b t = a.
Proof.
  intro H. destruct a as [[[a0 a1] a2] a3], b as [[[b0 b1] b2] b3].
  unfold interpolate_rgbw. rewrite !interpolate_low by exact H. reflexivity.
Qed.

Lemma interpolate_rgbw_high (a b : color) (t : Q) :
  (1 <= t)%Q -> interpolate_rgbw a b t = b.
Proof.
  intro H. destruct a as [[[a0 a1] a2] a3], b as [[[b0 b1] b2] b3].
  unfold interpolate_rgbw. rewrite !interpolate_high by exact H. reflexivity.
Qed.



(** X9. [interpolate_rgbw] of two colors of bytes is a color of bytes, channel
    by channel between the two; it is the first color for every [t <= 0]
    and the second for every [t >= 1]. *)
Theorem interpolate_rgbw_stays_between (a b : color) (t : Q) :
  byte_color a -> byte_color b ->
  byte_color (interpolate_rgbw a b t) /\
  (forall k, (k < 4)%nat ->
     in_between (nth k (channels a) 0) (nth k (channels b) 0)
       (nth k (channels (interpolate_rgbw a b t)) 0)) /\
  ((t <= 0)%Q -> interpolate_rgbw a b t = a) /\
  ((1 <= t)%Q -> interpolate_rgbw a b t = b).
Proof.
  intros Ha Hb.
  split; [apply interpolate_rgbw_bytes; assumption|].
  split; [|split; [apply interpolate_rgbw_low|apply interpolate_rgbw_high]].
  destruct a as [[[a0 a1] a2] a3], b as [[[b0 b1] b2] b3].
  unfold byte_color in Ha, Hb. cbn [channels forallb] in Ha, Hb.
  rewrite !andb_true_iff in Ha, Hb. rewrite !is_byte_iff in Ha, Hb.
  intros k Hk. unfold in_between. cbn [interpolate_rgbw channels].
  assert (Hc : k = 0%nat \/ k = 1%nat \/ k = 2%nat \/ k = 3%nat) by lia.
  destruct Hc as [-> | [-> | [-> | ->]]]; cbn [nth];
    apply int_of_Q_between; try apply interpolate_between; lia.
Qed.

Lemma interpolate_rgbw_stays_between_witness :
  byte_color (interpolate_rgbw river ambient (1 # 5)) /\
  (forall k, (k < 4)%nat ->
     in_between (nth k (channels river) 0) (nth k (channels ambient) 0)
       (nth k (channels (interpolate_rgbw river ambient (1 # 5))) 0)) /\
  ((1 # 5 <= 0)%Q -> interpolate_rgbw river ambient (1 # 5) = river) /\
  ((1 <= 1 # 5)%Q -> interpolate_rgbw river ambient (1 # 5) = ambient).
Proof.
  apply (interpolate_rgbw_stays_between river ambient (1 # 5)); reflexivity.
Defined.

Lemma byte_color_filled (c : color) :
  byte_color c -> forallb is_byte (filled c) = true.
Proof.
  intro Hc. unfold filled. induction (Z.to_nat n) as [|k IH]; [reflexivity|].
  cbn [repeat concat]. rewrite forallb_app, IH. unfold byte_color in Hc.
  rewrite Hc. reflexivity.
Qed.

(** X10. [uni] with a color of bytes completes on buffers of [n] pixels:
    afterwards every pixel of the target has that color and the target is a
    buffer of [n * 4] bytes, the current buffer and the trace are
    untouched, and a second call changes nothing. *)
Theorem uni_overwrites_target (c : color) (st : state) :
  byte_color c -> sized st ->
  exists st',
    uni c st = OK st' /\
    leds_0 st' = leds_0 st /\ wire st' = wire st /\
    byte_buffer (leds_1 st') /\
    (forall p, 0 <= p < n -> pixel_at (leds_1 st') p = channels c) /\
    uni c st' = OK st'.
Proof.
  intros Hc Hs. exists (with_leds_1 st (filled c)).
  split; [apply uni_fills; assumption|].
  split; [reflexivity|]. split; [reflexivity|].
  cbn [with_leds_1 leds_1].
  split; [split; [apply length_filled|apply byte_color_filled; exact Hc]|].
  split; [intros p Hp; apply pixel_at_filled; exact Hp|].
  rewrite uni_fills; [reflexivity|exact Hc|].
  destruct Hs as [H0 _]. split; [exact H0|apply length_filled].
Qed.

Lemma uni_overwrites_target_witness :
  exists st',
    uni ambient initial = OK st' /\
    leds_0 st' = leds_0 initial /\ wire st' = wire initial /\
    byte_buffer (leds_1 st') /\
    (forall p, 0 <= p < n -> pixel_at (leds_1 st') p = channels ambient) /\
    uni ambient st' = OK st'.
Proof.
  apply (uni_overwrites_target ambient initial).
  - reflexivity.
  - split; reflexivity.
Defined.

Lemma paris_scene_colors (p : Z) :
  0 <= p < n -> pixel_at paris_scene p = channels (paris_color p).
Proof.
  intro Hp.
  assert (H : forallb
                (fun q => same_pixel (pixel_at paris_scene q) (channels (paris_color q)))
                (range 0 n) = true) by (vm_compute; reflexivity).
  rewrite forallb_forall in H. apply same_pixel_eq. apply H. apply in_range. lia.
Qed.

Lemma length_paris_scene : Z.of_nat (length paris_scene) = n * 4.
Proof. vm_compute. reflexivity. Qed.

Lemma bytes_paris_scene : forallb is_byte paris_scene = true.
Proof. vm_compute. reflexivity. Qed.

(** X11. [paris] completes on buffers of [n] pixels and replaces the target by
    one and the same scene, whatever the target held before: the ambient
    wash with three shaded river windows whose centers 1, 65 and 142 are
    exactly [river].  The current buffer and the trace are untouched, and
    a second call changes nothing. *)
Theorem paris_replaces_target (st : state) :
  sized st ->
  exists st',
    paris st = OK st' /\
    leds_0 st' = leds_0 st /\ wire st' = wire st /\
    leds_1 st' = paris_scene /\ byte_buffer (leds_1 st') /\
    (forall p, 0 <= p < n -> pixel_at (leds_1 st') p = channels (paris_color p)) /\
    pixel_at (leds_1 st') 1 = channels river /\
    pixel_at (leds_1 st') 65 = channels river /\
    pixel_at (leds_1 st') 142 = channels river /\
    paris st' = OK st'.
Proof.
  intro Hs. exists (with_leds_1 st paris_scene).
  split; [apply paris_scene_from; exact Hs|].
  split; [reflexivity|]. split; [reflexivity|]. split; [reflexivity|].
  cbn [with_leds_1 leds_1].
  split; [split; [apply length_paris_scene|apply bytes_paris_scene]|].
  split; [intros p Hp; apply paris_scene_colors; exact Hp|].
  split; [reflexivity|]. split; [reflexivity|]. split; [reflexivity|].
  rewrite paris_scene_from; [reflexivity|].
  destruct Hs as [H0 _]. split; [exact H0|apply length_paris_scene].
Qed.

Lemma paris_replaces_target_witness :
  exists st',
    paris fading_state = OK st' /\
    leds_0 st' = leds_0 fading_state /\ wire st' = wire fading_state /\
    leds_1 st' = paris_scene /\ byte_buffer (leds_1 st') /\
    (forall p, 0 <= p < n -> pixel_at (leds_1 st') p = channels (paris_color p)) /\
    pixel_at (leds_1 st') 1 = channels river /\
    pixel_at (leds_1 st') 65 = channels river /\
    pixel_at (leds_1 st') 142 = channels river /\
    paris st' = OK st'.
Proof.
  apply (paris_replaces_target fading_state). split; reflexivity.
Defined.

Lemma solar_marker_paints (i : Z) (elev : R) (st : state) :
  sized st ->
  exists st',
    solar_marker (Some i) elev st = OK st' /\ sized st' /\
    leds_0 st' = leds_0 st /\ wire st' = wire st /\
    (forallb is_byte (leds_1 st) = true -> forallb is_byte (leds_1 st') = true) /\
    (forall k, i - 3 <= k <= i + 3 ->
       pixel_at (leds_1 st') (k mod n)
       = channels (interpolate_rgbw (fst (marker_colors elev))
                     (snd (marker_colors elev)) (gradient_t i 7 k))) /\
    (forall p, 0 <= p < n -> (forall k, i - 3 <= k <= i + 3 -> p <> k mod n) ->
       pixel_at (leds_1 st') p = pixel_at (leds_1 st) p).
Proof.
  intro Hs. unfold solar_marker, marker_colors, sun, moon.
  destruct (Rltb 0 elev); cbn [fst snd].
  - destruct (set_area_paints i 7 (127, 255, 0, 0) (50, 255, 0, 0) false st
                eq_refl eq_refl Hs ltac:(unfold n; lia))
      as [changed [st' (E & S1 & S2 & S3 & S4 & _ & S6 & S7)]].
    change (7 / 2) with 3 in *. change (7 mod 2) with 1 in *.
    cbn [unpainted painted] in *.
    exists st'. rewrite E. cbn [bind snd].
    split; [reflexivity|]. split; [exact S1|]. split; [exact S2|].
    split; [exact S3|]. split; [exact S4|].
    split; [intros k Hk; apply S6; lia|].
    intros p Hp Hout. apply S7; [exact Hp|]. intros k Hk. apply Hout. lia.
  - destruct (set_area_paints i 7 (0, 0, 200, 0) (0, 0, 0, 10) false st
                eq_refl eq_refl Hs ltac:(unfold n; lia))
      as [changed [st' (E & S1 & S2 & S3 & S4 & _ & S6 & S7)]].
    change (7 / 2) with 3 in *. change (7 mod 2) with 1 in *.
    cbn [unpainted painted] in *.
    exists st'. rewrite E. cbn [bind snd].
    split; [reflexivity|]. split; [exact S1|]. split; [exact S2|].
    split; [exact S3|]. split; [exact S4|].
    split; [intros k Hk; apply S6; lia|].
    intros p Hp Hout. apply S7; [exact Hp|]. intros k Hk. apply Hout. lia.
Qed.

Lemma solar_runs (coords : R * R) (dt : date_time) (st : state) :
  sized st ->
  exists i st',
    intersect_angle_frame
      (northclockwise2math (fst (calc_solar_position coords dt))) = Some i /\
    0 <= i < n /\
    solar coords dt st = OK st' /\
    sized st' /\ leds_0 st' = leds_0 st /\ wire st' = wire st /\
    (forallb is_byte (leds_1 st) = true -> forallb is_byte (leds_1 st') = true) /\
    (forall k, i - 3 <= k <= i + 3 ->
       pixel_at (leds_1 st') (k mod n)
       = channels (interpolate_rgbw
                     (fst (marker_colors (snd (calc_solar_position coords dt))))
                     (snd (marker_colors (snd (calc_solar_position coords dt))))
                     (gradient_t i 7 k))) /\
    (forall p, 0 <= p < n -> (forall k, i - 3 <= k <= i + 3 -> p <> k mod n) ->
       pixel_at (leds_1 st') p = pixel_at (leds_1 st) p).
Proof.
  intro Hs. unfold solar.
  destruct (calc_solar_position coords dt) as [azim elev]. cbn [fst snd].
  destruct (intersect_angle_frame_total (northclockwise2math azim)) as [i [Ei Hi]].
  destruct (solar_marker_paints i elev st Hs)
    as [st' (E & S1 & S2 & S3 & S4 & S5 & S6)].
  exists i, st'. rewrite Ei.
  split; [reflexivity|]. split; [unfold n in *; lia|]. split; [exact E|].
  split; [exact S1|]. split; [exact S2|]. split; [exact S3|].
  split; [exact S4|]. split; [exact S5|exact S6].
Qed.



Lemma zeros_filled : zeros (n * 4) = filled off.
Proof. reflexivity. Qed.

Lemma clock_hands_draws (i0 i1 i2 : Z) (st : state) :
  0 <= i0 < n -> 0 <= i1 < n -> 0 <= i2 < n ->
  exists st',
    clock_hands [Some i0; Some i1; Some i2] st = OK st' /\
    leds_1 st' = leds_1 st /\ wire st' = wire st ++ [leds_0 st'] /\
    byte_buffer (leds_0 st') /\
    (forall p, 0 <= p < n ->
       pixel_at (leds_0 st') p = channels (clock_face i0 i1 i2 p)).
Proof.
  intros H0 H1 H2. unfold clock_hands. cbn [map_m times4 bind nth].
  change (bytearray (channels ambient)) with (OK (channels ambient)).
  change (bytearray (channels river)) with (OK (channels river)).
  change (bytearray [0; 0; 0; 128]) with (OK (channels (0, 0, 0, 128))).
  cbn [bind].
  set (l2 := setslice (zeros (n * 4)) (i2 * 4) (i2 * 4 + 4) (channels ambient)).
  set (l1 := setslice l2 (i1 * 4) (i1 * 4 + 4) (channels river)).
  set (l0 := setslice l1 (i0 * 4) (i0 * 4 + 4) (channels (0, 0, 0, 128))).
  assert (Hz : Z.of_nat (length (zeros (n * 4))) = n * 4) by reflexivity.
  assert (L2 : Z.of_nat (length l2) = n * 4).
  { subst l2. rewrite length_setslice_pixel; auto. }
  assert (L1 : Z.of_nat (length l1) = n * 4).
  { subst l1. rewrite length_setslice_pixel; auto. }
  assert (L0 : Z.of_nat (length l0) = n * 4).
  { subst l0. rewrite length_setslice_pixel; auto. }
  eexists. split; [reflexivity|].
  cbn [neopixel_write with_leds_0 leds_0 leds_1 wire].
  split; [reflexivity|]. split; [reflexivity|]. split; [split|].
  - exact L0.
  - subst l0 l1 l2.
    repeat (apply bytes_setslice_pixel; auto).
  - intros p Hp. unfold clock_face.
    destruct (Z.eqb_spec p i0) as [->|N0].
    { subst l0. apply pixel_at_setslice_same; assumption. }
    subst l0. rewrite pixel_at_setslice_other; auto; [|lia].
    destruct (Z.eqb_spec p i1) as [->|N1].
    { subst l1. apply pixel_at_setslice_same; assumption. }
    subst l1. rewrite pixel_at_setslice_other; auto; [|lia].
    destruct (Z.eqb_spec p i2) as [->|N2].
    { subst l2. apply pixel_at_setslice_same; assumption. }
    subst l2. rewrite pixel_at_setslice_other; auto; [|lia].
    rewrite zeros_filled. apply pixel_at_filled. exact Hp.
Qed.

(** X13. [clock] at any reading of the time maps its three hands to pixels of
    the ring and shows exactly them on a dark strip: the hour hand white
    at 128, the minute hand [river], the second hand [ambient], a hand
    written later hiding one written earlier on the same pixel.  The frame
    goes to the driver; the target is left alone. *)
Theorem clock_draws_three_hands (h m s : Z) (st : state) :
  exists i0 i1 i2 st',
    let '(a_h, a_m, a_s) := hand_angles h m s in
    intersect_angle_frame (northclockwise2math a_h) = Some i0 /\
    intersect_angle_frame (northclockwise2math a_m) = Some i1 /\
    intersect_angle_frame (northclockwise2math a_s) = Some i2 /\
    clock h m s st = OK st' /\
    leds_1 st' = leds_1 st /\ wire st' = wire st ++ [leds_0 st'] /\
    byte_buffer (leds_0 st') /\
    (forall p, 0 <= p < n ->
       pixel_at (leds_0 st') p = channels (clock_face i0 i1 i2 p)).
Proof.
  unfold hand_angles, clock. cbn [map].
  destruct (intersect_angle_frame_total
              (northclockwise2math
                 ((IZR ((h + 1) mod 12) + IZR m / 60) / 12 * 2 * PI)%R))
    as [i0 [E0 H0]].
  destruct (intersect_angle_frame_total
              (northclockwise2math (IZR m / 60 * 2 * PI)%R)) as [i1 [E1 H1]].
  destruct (intersect_angle_frame_total
              (northclockwise2math (IZR s / 60 * 2 * PI)%R)) as [i2 [E2 H2]].
  destruct (clock_hands_draws i0 i1 i2 st) as [st' (E & S1 & S2 & S3 & S4)];
    try (unfold n in *; lia).
  exists i0, i1, i2, st'. rewrite E0, E1, E2.
  split; [reflexivity|]. split; [reflexivity|]. split; [reflexivity|].
  split; [exact E|]. split; [exact S1|]. split; [exact S2|].
  split; [exact S3|exact S4].
Qed.

(** With no pixel set, [apply] ends with the current buffer equal to the
    target, and the last frame it hands to the driver is that buffer. *)
Lemma apply_all_copies (steps : Z) (pixels : option (list Z)) (st : state) :
  1 <= steps -> well_formed st -> truthy pixels = false ->
  exists st' frames,
    apply steps pixels st = OK st' /\ well_formed st' /\
    leds_0 st' = leds_1 st /\ leds_1 st' = leds_1 st /\
    wire st' = wire st ++ frames ++ [leds_1 st] /\
    Z.of_nat (length frames) = steps - 1.
Proof.
  intros Hs Hwf Hp.
  assert (Hv : valid_pixels pixels).
  { destruct pixels as [[|j p]|]; try exact I; [intros j []|discriminate]. }
  destruct (apply_converges steps pixels st Hs Hwf Hv)
    as [st' (E & Hwf' & H1 & [frames [Hw Hlen]] & _ & Hin)].
  assert (H0 : leds_0 st' = leds_1 st).
  { destruct Hwf' as [[L0 _] _]. destruct Hwf as [_ [L1 _]].
    apply (nth_ext _ _ 0 0); [lia|].
    intros k Hk.
    assert (Hk' : In (Z.of_nat k) (affected pixels)).
    { unfold affected. rewrite Hp. apply in_range. lia. }
    specialize (Hin _ Hk'). unfold byte_at in Hin.
    rewrite Nat2Z.id in Hin. exact Hin. }
  exists st', frames. rewrite <- H0 at 3.
  split; [exact E|]. split; [exact Hwf'|]. split; [exact H0|].
  split; [exact H1|]. split; [exact Hw|exact Hlen].
Qed.

(** X14. An empty pixel set means the whole strip.  [set_area] with
    [size = 0] paints nothing and returns the empty set, and [apply] given
    the empty set does what it does given [None]: it fades every pixel and
    ends with the current buffer equal to the target. *)
Theorem empty_pixel_set_fades_everything (center : Z) (primary secondary : color)
    (direct : bool) (steps : Z) (st : state) :
  1 <= steps -> well_formed st ->
  set_area center 0 primary secondary direct st = OK ([], st) /\
  exists st',
    apply steps (Some []) st = OK st' /\
    apply steps None st = OK st' /\
    leds_0 st' = leds_1 st.
Proof.
  intros Hs Hwf. split.
  - unfold set_area. change (0 / 2) with 0. change (0 mod 2) with 0.
    rewrite range_nil by lia. reflexivity.
  - destruct (apply_all_copies steps (Some []) st Hs Hwf eq_refl)
      as [st' [frames (E & _ & H0 & _)]].
    exists st'. split; [exact E|]. split; [exact E|exact H0].
Qed.

Lemma empty_pixel_set_fades_everything_witness :
  set_area 90 0 river ambient false fading_state = OK ([], fading_state) /\
  exists st',
    apply 10 (Some []) fading_state = OK st' /\
    apply 10 None fading_state = OK st' /\
    leds_0 st' = leds_1 fading_state.
Proof.
  apply (empty_pixel_set_fades_everything 90 river ambient false 10 fading_state).
  - lia.
  - split; split; reflexivity.
Defined.




(** [solar(coords, now); apply(steps)] on a target [l]. *)
Lemma marker_round (coords : R * R) (now : date_time) (steps : Z) (l : list Z)
    (st : state) :
  1 <= steps -> byte_buffer (leds_0 st) -> byte_buffer l ->
  exists i st1 st' frames,
    intersect_angle_frame
      (northclockwise2math (fst (calc_solar_position coords now))) = Some i /\
    0 <= i < n /\
    solar coords now (with_leds_1 st l) = OK st1 /\
    apply steps None st1 = OK st' /\
    well_formed st' /\ leds_0 st' = leds_1 st' /\
    wire st' = wire st ++ frames ++ [leds_0 st'] /\
    Z.of_nat (length frames) = steps - 1 /\
    (forall p, 0 <= p < n ->
       pixel_at (leds_0 st') p
       = marker_over i (marker_colors (snd (calc_solar_position coords now)))
           (pixel_at l) p).
Proof.
  intros Hst [L0 B0] [L1 B1].
  assert (Hs1 : sized (with_leds_1 st l)) by (split; assumption).
  destruct (solar_runs coords now _ Hs1)
    as [i [st1 (Ei & Hi & E & [M0 M1] & S2 & S3 & S4 & S5 & S6)]].
  cbn [with_leds_1 leds_0 leds_1 wire] in *.
  assert (Hwf1 : well_formed st1).
  { split; split; [exact M0|rewrite S2; exact B0|exact M1|exact (S4 B1)]. }
  destruct (apply_all_copies steps None st1 Hst Hwf1 eq_refl)
    as [st' [frames (E' & Hwf' & T0 & T1 & Tw & Tl)]].
  exists i, st1, st', frames.
  split; [exact Ei|]. split; [exact Hi|]. split; [exact E|]. split; [exact E'|].
  split; [exact Hwf'|]. split; [congruence|].
  split; [rewrite Tw, S3, T0; reflexivity|]. split; [exact Tl|].
  intros p Hp. rewrite T0. unfold marker_over. cbv zeta.
  pose proof (Z.mod_pos_bound (p - i) n ltac:(unfold n; lia)) as Hm.
  destruct (Z.leb_spec ((p - i) mod n) 3) as [Hnear|Hfar].
  - set (k := i + (p - i) mod n).
    assert (Hk : k mod n = p).
    { subst k. rewrite Zplus_mod_idemp_r. replace (i + (p - i)) with p by lia.
      apply Z.mod_small. exact Hp. }
    rewrite <- Hk at 1. apply S5. subst k. lia.
  - destruct (Z.leb_spec (n - 3) ((p - i) mod n)) as [Hback|Hmid].
    + set (k := i + (p - i) mod n - n).
      assert (Hk : k mod n = p).
      { subst k. replace (i + (p - i) mod n - n)
          with (i + (p - i) mod n + (-1) * n) by lia.
        rewrite Z.mod_add by (unfold n; lia).
        rewrite Zplus_mod_idemp_r. replace (i + (p - i)) with p by lia.
        apply Z.mod_small. exact Hp. }
      rewrite <- Hk at 1. apply S5. subst k. lia.
    + apply S6; [exact Hp|].
      intros k Hk Heq. subst p.
      assert (Hc : (k mod n - i) mod n = (k - i) mod n).
      { rewrite Zminus_mod_idemp_l. reflexivity. }
      rewrite Hc in *.
      pose proof (Z.div_mod (k - i) n ltac:(unfold n; lia)) as Hd'.
      unfold n in *.
      assert ((k - i) / 180 = 0 \/ (k - i) / 180 = -1) by lia.
      lia.
Qed.

Lemma byte_buffer_paris_scene : byte_buffer paris_scene.
Proof. split; [apply length_paris_scene|apply bytes_paris_scene]. Qed.

(** [apply(steps)] on a target [l]. *)
Lemma apply_to_target (steps : Z) (l : list Z) (st : state) :
  1 <= steps -> byte_buffer (leds_0 st) -> byte_buffer l ->
  exists st' frames,
    apply steps None (with_leds_1 st l) = OK st' /\
    well_formed st' /\ leds_0 st' = l /\ leds_1 st' = l /\
    wire st' = wire st ++ frames ++ [l] /\
    Z.of_nat (length frames) = steps - 1.
Proof.
  intros Hst H0 Hl.
  assert (Hwf1 : well_formed (with_leds_1 st l)) by (split; assumption).
  destruct (apply_all_copies steps None _ Hst Hwf1 eq_refl)
    as [st' [frames (E & Hwf' & T0 & T1 & Tw & Tl)]].
  cbn [with_leds_1 leds_0 leds_1 wire] in *.
  exists st', frames.
  split; [exact E|]. split; [exact Hwf'|]. split; [exact T0|].
  split; [exact T1|]. split; [exact Tw|exact Tl].
Qed.

(** X16. [paris_solaire] completes from every state of byte buffers.  It hands
    ten frames to the driver, the last of them the final display, and ends
    with the current buffer equal to the target: the scene of [paris] with
    the solar marker laid over it around the pixel of the bearing.  What is
    shown depends on the time alone. *)
Theorem paris_solaire_display (now : date_time) (st : state) :
  well_formed st ->
  exists i st' frames,
    intersect_angle_frame
      (northclockwise2math (fst (calc_solar_position paris_coords now))) = Some i /\
    0 <= i < n /\
    paris_solaire now st = OK st' /\
    leds_0 st' = leds_1 st' /\
    wire st' = wire st ++ frames ++ [leds_0 st'] /\ length frames = 9%nat /\
    (forall p, 0 <= p < n ->
       pixel_at (leds_0 st') p
       = marker_over i
           (marker_colors (snd (calc_solar_position paris_coords now)))
           (fun q => channels (paris_color q)) p).
Proof.
  intros [[L0 B0] [L1 B1]].
  destruct (marker_round paris_coords now 10 paris_scene st ltac:(lia)
              (conj L0 B0) byte_buffer_paris_scene)
    as [i [st1 [st' [frames (Ei & Hi & E1 & E2 & _ & H01 & Hw & Hl & Hpix)]]]].
  exists i, st', frames.
  split; [exact Ei|]. split; [exact Hi|]. split.
  - unfold paris_solaire. rewrite paris_scene_from by (split; assumption).
    cbn [bind]. fold paris_coords. rewrite E1. cbn [bind]. exact E2.
  - split; [exact H01|]. split; [exact Hw|]. split; [lia|].
    intros p Hp. rewrite (Hpix p Hp). unfold marker_over. cbv zeta.
    destruct ((p - i) mod n <=? 3); [reflexivity|].
    destruct (n - 3 <=? (p - i) mod n); [reflexivity|].
    apply paris_scene_colors. exact Hp.
Qed.

Lemma paris_solaire_display_witness :
  exists i st' frames,
    intersect_angle_frame
      (northclockwise2math
         (fst (calc_solar_position paris_coords noon_2019_01_27))) = Some i /\
    0 <= i < n /\
    paris_solaire noon_2019_01_27 initial = OK st' /\
    leds_0 st' = leds_1 st' /\
    wire st' = wire initial ++ frames ++ [leds_0 st'] /\ length frames = 9%nat /\
    (forall p, 0 <= p < n ->
       pixel_at (leds_0 st') p
       = marker_over i
           (marker_colors (snd (calc_solar_position paris_coords noon_2019_01_27)))
           (fun q => channels (paris_color q)) p).
Proof.
  apply (paris_solaire_display noon_2019_01_27 initial).
  split; split; reflexivity.
Defined.

(** One round that ends on the plain scene: [paris(); apply()]. *)
Lemma paris_round (st : state) :
  well_formed st ->
  exists st' frames,
    (st1 <- paris st ;; apply 10 None st1) = OK st' /\
    well_formed st' /\ leds_0 st' = paris_scene /\ leds_1 st' = paris_scene /\
    wire st' = wire st ++ frames ++ [paris_scene] /\ length frames = 9%nat.
Proof.
  intros [[L0 B0] [L1 B1]].
  rewrite paris_scene_from by (split; assumption). cbn [bind].
  destruct (apply_to_target 10 paris_scene st ltac:(lia) (conj L0 B0)
              byte_buffer_paris_scene)
    as [st' [frames (E & Hwf' & T0 & T1 & Tw & Tl)]].
  exists st', frames.
  split; [exact E|]. split; [exact Hwf'|]. split; [exact T0|]. split; [exact T1|].
  split; [exact Tw|lia].
Qed.

Lemma demo_round (i j : Z) (st : state) :
  well_formed st ->
  exists st' frames,
    (st1 <- paris st ;;
     st2 <- solar (48860536 / 1000000, 2332237 / 1000000)%R
              (mkDateTime 2019 1 27 i j 0 6 27) st1 ;;
     apply 3 None st2) = OK st' /\
    well_formed st' /\ wire st' = wire st ++ frames /\ length frames = 3%nat.
Proof.
  intros [[L0 B0] [L1 B1]].
  destruct (marker_round paris_coords (mkDateTime 2019 1 27 i j 0 6 27) 3
              paris_scene st ltac:(lia) (conj L0 B0) byte_buffer_paris_scene)
    as [k [st1 [st' [frames (_ & _ & E1 & E2 & Hwf' & _ & Hw & Hl & _)]]]].
  exists st', (frames ++ [leds_0 st']).
  split; [|split; [exact Hwf'|split; [exact Hw|rewrite length_app; simpl; lia]]].
  rewrite paris_scene_from by (split; assumption).
  cbn [bind]. fold paris_coords. rewrite E1. cbn [bind]. exact E2.
Qed.

(** X17. [solar_demo] completes from every state of byte buffers, hands
    10 + 24 * 6 * 3 + 10 frames to the driver and ends on the plain scene
    of [paris] in both buffers, which is also the last frame. *)
Theorem solar_demo_ends_on_paris (st : state) :
  well_formed st ->
  exists st' frames,
    solar_demo st = OK st' /\
    leds_0 st' = paris_scene /\ leds_1 st' = paris_scene /\
    wire st' = wire st ++ frames ++ [paris_scene] /\
    length frames = (10 + 24 * 6 * 3 + 9)%nat.
Proof.
  intro Hwf. unfold solar_demo.
  destruct (paris_round st Hwf) as [sa [fa (Ea & Wa & _ & _ & Wwa & Wla)]].
  assert (Ea' : exists s1, paris st = OK s1 /\ apply 10 None s1 = OK sa).
  { destruct (paris st) as [s1|e]; [|discriminate]. exists s1. auto. }
  destruct Ea' as [s1 [Ep Eap]]. rewrite Ep. cbn [bind]. rewrite Eap. cbn [bind].
  destruct (for_each_invariant
    (fun i : Z =>
       for_each (range_step 0 60 10)
         (fun (j : Z) (st0 : state) =>
            st1 <- paris st0 ;;
            st2 <- solar (48860536 / 1000000, 2332237 / 1000000)%R
                     (mkDateTime 2019 1 27 i j 0 6 27) st1 ;;
            apply 3 None st2))
    (range 0 24)
    (fun p s => well_formed s /\
                exists frames, wire s = wire sa ++ frames /\
                               length frames = (18 * length p)%nat)
    sa) as [sb (Eb & Wb & [fb [Wwb Wlb]])].
  - split; [exact Wa|]. exists []. rewrite app_nil_r. auto.
  - intros p i s _ [Ws [fs [Hws Hls]]].
    destruct (for_each_invariant
      (fun (j : Z) (st0 : state) =>
         st1 <- paris st0 ;;
         st2 <- solar (48860536 / 1000000, 2332237 / 1000000)%R
                  (mkDateTime 2019 1 27 i j 0 6 27) st1 ;;
         apply 3 None st2)
      (range_step 0 60 10)
      (fun q t => well_formed t /\
                  exists frames, wire t = wire s ++ frames /\
                                 length frames = (3 * length q)%nat)
      s) as [t (Et & Wt & [ft [Hwt Hlt]])].
    + split; [exact Ws|]. exists []. rewrite app_nil_r. auto.
    + intros q j t _ [Wt [ft [Hwt Hlt]]].
      destruct (demo_round i j t Wt) as [t' [fr (Et' & Wt' & Hwt' & Hlt')]].
      exists t'. split; [exact Et'|]. split; [exact Wt'|].
      exists (ft ++ fr). rewrite Hwt', Hwt, <- app_assoc.
      split; [reflexivity|]. rewrite !length_app. simpl. lia.
    + exists t. split; [exact Et|]. split; [exact Wt|].
      exists (fs ++ ft). rewrite Hwt, Hws, <- app_assoc.
      split; [reflexivity|]. rewrite !length_app.
      change (length (range_step 0 60 10)) with 6%nat in Hlt. simpl. lia.
  - rewrite Eb. cbn [bind].
    destruct (paris_round sb Wb) as [sc [fc (Ec & _ & C0 & C1 & Wwc & Wlc)]].
    exists sc, (fa ++ [paris_scene] ++ fb ++ fc).
    split; [exact Ec|]. split; [exact C0|]. split; [exact C1|]. split.
    + rewrite Wwc, Wwb, Wwa, <- !app_assoc. reflexivity.
    + rewrite !length_app.
      change (length (range 0 24)) with 24%nat in Wlb. simpl. lia.
Qed.

Lemma solar_demo_ends_on_paris_witness :
  exists st' frames,
    solar_demo initial = OK st' /\
    leds_0 st' = paris_scene /\ leds_1 st' = paris_scene /\
    wire st' = wire initial ++ frames ++ [paris_scene] /\
    length frames = (10 + 24 * 6 * 3 + 9)%nat.
Proof.
  apply (solar_demo_ends_on_paris initial). split; split; reflexivity.
Defined.

(** One call of [clock]: a fresh current buffer of bytes goes to the driver,
    the target is left alone. *)
Lemma clock_frame (h m s : Z) (st : state) :
  exists st',
    clock h m s st = OK st' /\ leds_1 st' = leds_1 st /\
    wire st' = wire st ++ [leds_0 st'] /\ byte_buffer (leds_0 st').
Proof.
  unfold clock. cbn [map].
  destruct (intersect_angle_frame_total
              (northclockwise2math
                 ((IZR ((h + 1) mod 12) + IZR m / 60) / 12 * 2 * PI)%R))
    as [i0 [E0 H0]].
  destruct (intersect_angle_frame_total
              (northclockwise2math (IZR m / 60 * 2 * PI)%R)) as [i1 [E1 H1]].
  destruct (intersect_angle_frame_total
              (northclockwise2math (IZR s / 60 * 2 * PI)%R)) as [i2 [E2 H2]].
  destruct (clock_hands_draws i0 i1 i2 st) as [st' (E & S1 & S2 & S3 & _)];
    try (unfold n in *; lia).
  exists st'. rewrite E0, E1, E2. auto.
Qed.

(** X18. [time] completes whenever the target is a buffer of bytes, whatever
    the current buffer holds and whatever the clock reads: twenty clock
    frames and ten fading frames go to the driver, and the current buffer
    ends equal to the untouched target, the hands gone. *)
Theorem time_returns_to_target (now : Z -> Z * Z * Z) (st : state) :
  byte_buffer (leds_1 st) ->
  exists st' frames,
    time now st = OK st' /\
    leds_0 st' = leds_1 st /\ leds_1 st' = leds_1 st /\
    wire st' = wire st ++ frames ++ [leds_1 st] /\
    length frames = 29%nat.
Proof.
  intro Hb. unfold time.
  destruct (for_each_invariant
    (fun (i : Z) (s0 : state) => let '(h, m, s) := now i in clock h m s s0)
    (range 0 20)
    (fun p s => leds_1 s = leds_1 st /\
                (p <> [] -> byte_buffer (leds_0 s)) /\
                exists frames, wire s = wire st ++ frames /\
                               length frames = length p)
    st) as [sa (Ea & A1 & A0 & [fa (Wa & La)])].
  - split; [reflexivity|]. split; [intro H; contradiction|].
    exists []. rewrite app_nil_r. auto.
  - intros p i s _ (I1 & _ & [fs (Ws & Ls)]).
    destruct (now i) as [[h m] sec].
    destruct (clock_frame h m sec s) as [s' (E & S1 & S2 & S3)].
    exists s'. split; [exact E|]. split; [congruence|].
    split; [intros _; exact S3|].
    exists (fs ++ [leds_0 s']). rewrite S2, Ws, <- app_assoc.
    split; [reflexivity|]. rewrite !length_app. simpl. lia.
  - rewrite Ea. cbn [bind].
    assert (Hwf : well_formed sa).
    { split; [apply A0; discriminate|rewrite A1; exact Hb]. }
    destruct (apply_all_copies 10 None sa ltac:(lia) Hwf eq_refl)
      as [st' [fb (E & Hwf' & T0 & T1 & Tw & Tl)]].
    exists st', (fa ++ fb). rewrite A1 in *.
    split; [exact E|]. split; [exact T0|]. split; [exact T1|]. split.
    + rewrite Tw, Wa, <- !app_assoc. reflexivity.
    + rewrite length_app. change (length (range 0 20)) with 20%nat in La. lia.
Qed.

Lemma time_returns_to_target_witness :
  exists st' frames,
    time (fun i => (12, 0, i)) fading_state = OK st' /\
    leds_0 st' = leds_1 fading_state /\ leds_1 st' = leds_1 fading_state /\
    wire st' = wire fading_state ++ frames ++ [leds_1 fading_state] /\
    length frames = 29%nat.
Proof.
  apply (time_returns_to_target (fun i => (12, 0, i)) fading_state).
  split; reflexivity.
Defined.
